(** * Snapshot store of the agent runtime (atm_core/snapshot_store.py)

    A shallow embedding of [SnapshotStore]: the blob directory is a finite
    map from digest to file content, the SQLite index is a pair of tables
    kept in rowid order, and every method is a function on the store that
    returns the new store together with a value or the exception raised. *)

From Stdlib Require Import NArith ZArith Strings.Byte Ascii String Lia.
From stdpp Require Import base option list gmap sorting.

Local Open Scope N_scope.

(** ** Python values

    A Python [str] is a sequence of code points, a [bytes] object a sequence
    of octets.  Code points are numbers below [0x110000]; a [str] may hold
    lone surrogates ([0xD800..0xDFFF]), which no UTF-8 text encodes. *)

Abbreviation str := (list N).
Abbreviation bytes := (list byte).

Definition str_of_string (s : string) : str :=
  map N_of_ascii (list_ascii_of_string s).

(** Exceptions the methods raise, as far as they are determined by the
    arguments and the content of the store.  Failures of the environment
    (disk full, locked database, memory) are outside the model. *)
Inductive Exn :=
  | UnicodeEncodeError
  | UnicodeDecodeError
  | OverflowError
  | IntegrityError
  | OperationalError
  | FileNotFoundError (digest : str)
  | JSONDecodeError
  | KeyError (msg : str).

Inductive result (A : Type) :=
  | Ok (a : A)
  | Raise (e : Exn).
Arguments Ok {A} a.
Arguments Raise {A} e.

(** Sequencing stops at the first exception: [x ← r; k] in what follows. *)
#[global] Instance result_ret : MRet result := fun _ a => Ok a.
#[global] Instance result_bind : MBind result := fun _ _ k r =>
  match r with Ok a => k a | Raise e => Raise e end.

(** ** The UTF-8 codec of the Python runtime

    [str.encode("utf-8")], [bytes.decode("utf-8")] and
    [bytes.decode("utf-8", errors="ignore")] belong to the interpreter, not
    to this repository; they are written out here after the codec's
    definition (RFC 3629, table 3-7 of the Unicode standard), with the
    shifts and masks of the C implementation. *)
Module Utf8.

Definition octet (n : N) : byte :=
  match Byte.of_N n with Some b => b | None => x00 end.

(** One code point to its one to four octets; surrogates have no
    encoding (the strict error handler raises). *)
Definition encode_cp (ch : N) : option bytes :=
  if ch <? 0x80 then Some [octet ch]
  else if ch <? 0x800 then
    Some [octet (N.lor 0xC0 (N.shiftr ch 6));
          octet (N.lor 0x80 (N.land ch 0x3F))]
  else if (0xD800 <=? ch) && (ch <? 0xE000) then None
  else if ch <? 0x10000 then
    Some [octet (N.lor 0xE0 (N.shiftr ch 12));
          octet (N.lor 0x80 (N.land (N.shiftr ch 6) 0x3F));
          octet (N.lor 0x80 (N.land ch 0x3F))]
  else if ch <? 0x110000 then
    Some [octet (N.lor 0xF0 (N.shiftr ch 18));
          octet (N.lor 0x80 (N.land (N.shiftr ch 12) 0x3F));
          octet (N.lor 0x80 (N.land (N.shiftr ch 6) 0x3F));
          octet (N.lor 0x80 (N.land ch 0x3F))]
  else None.

(** [s.encode("utf-8")]: [None] stands for UnicodeEncodeError. *)
Fixpoint encode (s : str) : option bytes :=
  match s with
  | [] => Some []
  | ch :: s' =>
      match encode_cp ch, encode s' with
      | Some p, Some d => Some (p ++ d)
      | _, _ => None
      end
  end.

Definition between (lo hi : N) (b : byte) : bool :=
  (lo <=? Byte.to_N b) && (Byte.to_N b <=? hi).

Definition continuation : byte → bool := between 0x80 0xBF.

Definition low6 (b : byte) : N := N.land (Byte.to_N b) 0x3F.

(** The well-formed sequence at the head of [l], if there is one: its code
    point and the octets after it.  Overlong forms, encoded surrogates and
    values above [0x10FFFF] are not well formed. *)
Definition decode1 (l : bytes) : option (N * bytes) :=
  match l with
  | [] => None
  | b0 :: l1 =>
      let n0 := Byte.to_N b0 in
      if n0 <? 0x80 then Some (n0, l1)
      else if n0 <? 0xC2 then None
      else if n0 <? 0xE0 then
        match l1 with
        | b1 :: l2 =>
            if continuation b1
            then Some (N.lor (N.shiftl (N.land n0 0x1F) 6) (low6 b1), l2)
            else None
        | _ => None
        end
      else if n0 <? 0xF0 then
        match l1 with
        | b1 :: b2 :: l3 =>
            if between (if n0 =? 0xE0 then 0xA0 else 0x80)
                       (if n0 =? 0xED then 0x9F else 0xBF) b1
               && continuation b2
            then Some (N.lor (N.shiftl (N.land n0 0x0F) 12)
                        (N.lor (N.shiftl (low6 b1) 6) (low6 b2)), l3)
            else None
        | _ => None
        end
      else if n0 <? 0xF5 then
        match l1 with
        | b1 :: b2 :: b3 :: l4 =>
            if between (if n0 =? 0xF0 then 0x90 else 0x80)
                       (if n0 =? 0xF4 then 0x8F else 0xBF) b1
               && continuation b2 && continuation b3
            then Some (N.lor (N.shiftl (N.land n0 0x07) 18)
                        (N.lor (N.shiftl (low6 b1) 12)
                          (N.lor (N.shiftl (low6 b2) 6) (low6 b3))), l4)
            else None
        | _ => None
        end
      else None
  end.

(** [d.decode("utf-8", errors="ignore")].  Where no well-formed sequence
    starts, the handler drops octets and resumes; dropping them one at a
    time gives the same text as dropping a maximal ill-formed prefix,
    since the octets of such a prefix after its first are continuation
    octets, which start no sequence.  [n] bounds the number of steps. *)
Fixpoint decode_ignore_from (n : nat) (l : bytes) : str :=
  match n, l with
  | S n', _ :: t =>
      match decode1 l with
      | Some (ch, rest) => ch :: decode_ignore_from n' rest
      | None => decode_ignore_from n' t
      end
  | _, _ => []
  end.

Definition decode_ignore (d : bytes) : str :=
  decode_ignore_from (length d) d.

(** [d.decode("utf-8")]: [None] stands for UnicodeDecodeError. *)
Fixpoint decode_from (n : nat) (l : bytes) : option str :=
  match l, n with
  | [], _ => Some []
  | _ :: _, S n' =>
      match decode1 l with
      | Some (ch, rest) => cons ch <$> decode_from n' rest
      | None => None
      end
  | _ :: _, O => None
  end.

Definition decode (d : bytes) : option str :=
  decode_from (length d) d.

End Utf8.

(** ** Collaborators

    [atm_core/models.py] supplies the agent state, its ledger entries and
    the digest; [json.loads] is the interpreter's.  The store uses them
    through the interface below and nothing else. *)

(** [time.time()] and the [created_at] of a ledger entry are finite
    floating point numbers that the store only copies and compares; a
    timestamp is named by its rank in the order of those numbers. *)
Abbreviation timestamp := Z.

Module ToolCall.
(** Modelled from the spec: the ledger entry class of models.py, which is
    not under src/; one field per attribute read by [snapshot], typed as
    section 3 of the specification lists them. *)
Record t := {
  name : str;
  in_hash : str;
  out_hash : str;
  status : str;
  latency_ms : Z;
  url : option str;
  created_at : timestamp
}.
End ToolCall.

Class Models := {
  AgentState : Type;
  (** [state.to_json()] *)
  to_json : AgentState → str;
  (** [state.tool_ledger] *)
  tool_ledger : AgentState → list ToolCall.t;
  (** [sha256_text(text)], a hexadecimal digest *)
  sha256_text : str → str
}.

Class JsonLib := {
  Json : Type;
  (** [json.loads(text)]: the value, or the exception it raises *)
  json_loads : str → result Json
}.

(** What [uuid.uuid4()] and [time.time()] give during one call. *)
Record Env := {
  uuid4 : str;
  time : timestamp
}.

(** ** The index (index.sqlite) *)

Module Snapshots.
Record row := {
  snapshot_id : str;
  parent_snapshot_id : option str;
  state_hash : str;
  state_blob_hash : str;
  created_at : timestamp
}.
End Snapshots.

Module ToolLedger.
Record row := {
  id : Z;
  snapshot_id : str;
  name : str;
  in_hash : str;
  out_hash : str;
  status : str;
  latency_ms : Z;
  url : option str;
  created_at : timestamp
}.

(** The columns of a row that come from the ledger entry. *)
Definition entry (r : row) : ToolCall.t :=
  {| ToolCall.name := name r;
     ToolCall.in_hash := in_hash r;
     ToolCall.out_hash := out_hash r;
     ToolCall.status := status r;
     ToolCall.latency_ms := latency_ms r;
     ToolCall.url := url r;
     ToolCall.created_at := created_at r |}.
End ToolLedger.

Module Index.
(** Both tables in rowid order, which is insertion order since no row is
    ever deleted, and the AUTOINCREMENT counter of [tool_ledger] (the
    largest rowid the table ever held, kept in sqlite_sequence). *)
Record t := {
  snapshots : list Snapshots.row;
  tool_ledger : list ToolLedger.row;
  sequence : Z
}.

Definition empty : t :=
  {| snapshots := []; tool_ledger := []; sequence := 0 |}.
End Index.

(** *** Binding of statement parameters

    The sqlite3 module hands a [str] to SQLite as UTF-8 and an [int] as a
    signed 64-bit integer; a [str] with a lone surrogate raises
    UnicodeEncodeError and an [int] out of range OverflowError, before the
    statement runs.  [None] is bound as NULL. *)
Definition bind_text (s : str) : result str :=
  match Utf8.encode s with
  | Some _ => Ok s
  | None => Raise UnicodeEncodeError
  end.

Definition bind_optional_text (o : option str) : result (option str) :=
  match o with
  | Some s => s' ← bind_text s; mret (Some s')
  | None => mret None
  end.

Definition bind_integer (z : Z) : result Z :=
  if ((- 2 ^ 63 <=? z) && (z <? 2 ^ 63))%Z then Ok z else Raise OverflowError.

(** [INSERT INTO snapshots (...) VALUES (?, ?, ?, ?, ?)]: the primary key
    rejects a [snapshot_id] that the table already holds. *)
Definition insert_snapshot (ix : Index.t) (r : Snapshots.row)
    : result Index.t :=
  sid ← bind_text (Snapshots.snapshot_id r);
  parent ← bind_optional_text (Snapshots.parent_snapshot_id r);
  sh ← bind_text (Snapshots.state_hash r);
  bh ← bind_text (Snapshots.state_blob_hash r);
  if existsb (λ r', bool_decide (Snapshots.snapshot_id r' = sid))
       (Index.snapshots ix)
  then Raise IntegrityError
  else Ok {| Index.snapshots :=
               Index.snapshots ix ++
               [ {| Snapshots.snapshot_id := sid;
                    Snapshots.parent_snapshot_id := parent;
                    Snapshots.state_hash := sh;
                    Snapshots.state_blob_hash := bh;
                    Snapshots.created_at := Snapshots.created_at r |} ];
             Index.tool_ledger := Index.tool_ledger ix;
             Index.sequence := Index.sequence ix |}.

(** [INSERT INTO tool_ledger (...) VALUES (?,?,?,?,?,?,?,?)]: the row gets
    the next AUTOINCREMENT id; once the largest rowid has been used SQLite
    refuses the insert (SQLITE_FULL, an OperationalError). *)
Definition insert_tool_call (ix : Index.t) (snap_id : str) (tc : ToolCall.t)
    : result Index.t :=
  sid ← bind_text snap_id;
  name ← bind_text (ToolCall.name tc);
  in_hash ← bind_text (ToolCall.in_hash tc);
  out_hash ← bind_text (ToolCall.out_hash tc);
  status ← bind_text (ToolCall.status tc);
  latency_ms ← bind_integer (ToolCall.latency_ms tc);
  url ← bind_optional_text (ToolCall.url tc);
  if (Index.sequence ix <? 2 ^ 63 - 1)%Z
  then Ok {| Index.snapshots := Index.snapshots ix;
             Index.tool_ledger :=
               Index.tool_ledger ix ++
               [ {| ToolLedger.id := Index.sequence ix + 1;
                    ToolLedger.snapshot_id := sid;
                    ToolLedger.name := name;
                    ToolLedger.in_hash := in_hash;
                    ToolLedger.out_hash := out_hash;
                    ToolLedger.status := status;
                    ToolLedger.latency_ms := latency_ms;
                    ToolLedger.url := url;
                    ToolLedger.created_at := ToolCall.created_at tc |} ];
             Index.sequence := (Index.sequence ix + 1)%Z |}
  else Raise OperationalError.

(** *** Connections

    [sqlite3.connect(db_path)] opens a connection that sees the content of
    the file.  The first INSERT on it opens a transaction; what the
    statements of the transaction change is seen on the connection only,
    until [commit()] writes it to the file.  A statement that raises
    changes nothing.  A connection that goes away with its transaction open
    leaves the file as the last commit left it. *)
Record Connection := {
  committed : Index.t;
  working : Index.t
}.

Definition connect (ix : Index.t) : Connection :=
  {| committed := ix; working := ix |}.

(** Code that runs on a connection and returns or raises. *)
Definition Transaction (A : Type) : Type :=
  Connection → Connection * result A.

#[global] Instance transaction_ret : MRet Transaction :=
  fun _ a conn => (conn, Ok a).
#[global] Instance transaction_bind : MBind Transaction :=
  fun _ _ k m conn =>
    match m conn with
    | (conn', Ok a) => k a conn'
    | (conn', Raise e) => (conn', Raise e)
    end.

(** [c.execute(statement, parameters)] *)
Definition execute (statement : Index.t → result Index.t) : Transaction () :=
  fun conn =>
    match statement (working conn) with
    | Ok ix => ({| committed := committed conn; working := ix |}, Ok ())
    | Raise e => (conn, Raise e)
    end.

(** [conn.commit()] *)
Definition commit : Transaction () :=
  fun conn => ({| committed := working conn; working := working conn |}, Ok ()).

(** [for x in l: body] *)
Fixpoint for_each {A} (l : list A) (body : A → Transaction ())
    : Transaction () :=
  match l with
  | [] => mret ()
  | x :: l' => _ ← body x; for_each l' body
  end.

(** [ORDER BY created_at DESC]: a stable sort of the rows in scan order,
    so that among rows of equal [created_at] the one inserted first comes
    first.  SQL leaves the order among equal keys open, and no statement
    below depends on it. *)
Fixpoint insert_desc (r : Snapshots.row) (l : list Snapshots.row)
    : list Snapshots.row :=
  match l with
  | [] => [r]
  | r' :: l' =>
      if (Snapshots.created_at r' <=? Snapshots.created_at r)%Z
      then r :: l
      else r' :: insert_desc r l'
  end.

Definition order_by_created_at_desc (l : list Snapshots.row)
    : list Snapshots.row :=
  foldr insert_desc [] l.

(** ** The store *)

(** The root directory: [blobs/<h>.json.gz] holds, compressed, the bytes
    kept here under [h]; [index.sqlite] holds what has been committed. *)
Record Store := {
  blob_dir : gmap str bytes;
  db : Index.t
}.

(** [SnapshotStore(root)] on a root that does not exist yet.  On an
    existing root the constructor changes nothing (exist_ok, IF NOT
    EXISTS). *)
Definition init : Store :=
  {| blob_dir := ∅; db := Index.empty |}.

Section SnapshotStore.
Context `{Models}.

Definition _write_blob (st : Store) (data : bytes) : Store * str :=
  let h := sha256_text (Utf8.decode_ignore data) in
  (match blob_dir st !! h with
   | Some _ => st
   | None => {| blob_dir := <[h := data]> (blob_dir st); db := db st |}
   end, h).

Definition _read_blob (st : Store) (h : str) : result bytes :=
  match blob_dir st !! h with
  | Some data => Ok data
  | None => Raise (FileNotFoundError h)
  end.

(** What [snapshot] does on its connection, up to the commit. *)
Definition snapshot_transaction (snap_id : str)
    (parent_snapshot_id : option str) (state_hash blob_hash : str)
    (now : timestamp) (ledger : list ToolCall.t) : Transaction str :=
  _ ← execute (λ ix, insert_snapshot ix
         {| Snapshots.snapshot_id := snap_id;
            Snapshots.parent_snapshot_id := parent_snapshot_id;
            Snapshots.state_hash := state_hash;
            Snapshots.state_blob_hash := blob_hash;
            Snapshots.created_at := now |});
  _ ← for_each ledger
        (λ tc, execute (λ ix, insert_tool_call ix snap_id tc));
  _ ← commit;
  mret snap_id.

(** The method returns after [conn.close()]; when a statement raises, the
    method is left at once and the connection goes away unclosed.  Either
    way the file holds what the connection has committed. *)
Definition snapshot (st : Store) (state : AgentState)
    (parent_snapshot_id : option str) (env : Env) : Store * result str :=
  let state_json := to_json state in
  let state_hash := sha256_text state_json in
  match Utf8.encode state_json with
  | None => (st, Raise UnicodeEncodeError)
  | Some data =>
      let '(st1, blob_hash) := _write_blob st data in
      let snap_id := uuid4 env in
      let '(conn, r) :=
        snapshot_transaction snap_id parent_snapshot_id state_hash
          blob_hash (time env) (tool_ledger state) (connect (db st1)) in
      ({| blob_dir := blob_dir st1; db := committed conn |}, r)
  end.

(** [SELECT state_blob_hash FROM snapshots WHERE snapshot_id=?] and
    [fetchone()] *)
Definition select_state_blob_hash (ix : Index.t) (snapshot_id : str)
    : result (option str) :=
  sid ← bind_text snapshot_id;
  mret (Snapshots.state_blob_hash <$>
          find (λ r, bool_decide (Snapshots.snapshot_id r = sid))
            (Index.snapshots ix)).

Definition not_found (snapshot_id : str) : str :=
  str_of_string "Snapshot " ++ snapshot_id ++ str_of_string " not found".

Definition get `{JsonLib} (st : Store) (snapshot_id : str) : result Json :=
  row ← select_state_blob_hash (db st) snapshot_id;
  match row with
  | None => Raise (KeyError (not_found snapshot_id))
  | Some blob_hash =>
      data ← _read_blob st blob_hash;
      match Utf8.decode data with
      | None => Raise UnicodeDecodeError
      | Some text => json_loads text
      end
  end.

(** [SELECT snapshot_id FROM snapshots ORDER BY created_at DESC LIMIT 1] *)
Definition last_snapshot_id (st : Store) : option str :=
  Snapshots.snapshot_id <$>
    head (order_by_created_at_desc (Index.snapshots (db st))).

End SnapshotStore.

(** ** Reading the index back *)

(** [SELECT * FROM snapshots WHERE snapshot_id = ?], first row. *)
Definition snapshot_row (st : Store) (snapshot_id : str)
    : option Snapshots.row :=
  find (λ r, bool_decide (Snapshots.snapshot_id r = snapshot_id))
    (Index.snapshots (db st)).

(** [SELECT * FROM tool_ledger WHERE snapshot_id = ?] in rowid order. *)
Definition ledger_rows_of (st : Store) (snapshot_id : str)
    : list ToolLedger.row :=
  filter (λ r, ToolLedger.snapshot_id r = snapshot_id)
    (Index.tool_ledger (db st)).

(** The row that holds a ledger entry, and the rows that hold a ledger,
    numbered from [next] on. *)
Definition ledger_row (id : Z) (snap_id : str) (tc : ToolCall.t)
    : ToolLedger.row :=
  {| ToolLedger.id := id;
     ToolLedger.snapshot_id := snap_id;
     ToolLedger.name := ToolCall.name tc;
     ToolLedger.in_hash := ToolCall.in_hash tc;
     ToolLedger.out_hash := ToolCall.out_hash tc;
     ToolLedger.status := ToolCall.status tc;
     ToolLedger.latency_ms := ToolCall.latency_ms tc;
     ToolLedger.url := ToolCall.url tc;
     ToolLedger.created_at := ToolCall.created_at tc |}.

Fixpoint ledger_rows (next : Z) (snap_id : str) (ledger : list ToolCall.t)
    : list ToolLedger.row :=
  match ledger with
  | [] => []
  | tc :: ledger' =>
      ledger_row next snap_id tc :: ledger_rows (next + 1) snap_id ledger'
  end.

(** ** Stores that the methods produce *)

Section Invariants.
Context `{Models}.

(** The snapshot row that a call writes. *)
Definition new_row (state : AgentState) (parent_snapshot_id : option str)
    (env : Env) : Snapshots.row :=
  {| Snapshots.snapshot_id := uuid4 env;
     Snapshots.parent_snapshot_id := parent_snapshot_id;
     Snapshots.state_hash := sha256_text (to_json state);
     Snapshots.state_blob_hash := sha256_text (to_json state);
     Snapshots.created_at := time env |}.

(** The digest is taken to have no collisions. *)
Definition collision_resistant : Prop :=
  ∀ text1 text2 : str, sha256_text text1 = sha256_text text2 → text1 = text2.

Record store_wf (st : Store) : Prop := {
  (** every blob is the encoding of the text whose digest names it *)
  wf_blob_content : ∀ h data,
    blob_dir st !! h = Some data →
    ∃ text, Utf8.encode text = Some data ∧ sha256_text text = h;
  (** every snapshot row names a blob of the store *)
  wf_blob_exists : ∀ r,
    r ∈ Index.snapshots (db st) →
    is_Some (blob_dir st !! Snapshots.state_blob_hash r);
  (** the primary key *)
  wf_primary_key : NoDup (Snapshots.snapshot_id <$> Index.snapshots (db st));
  (** every ledger row belongs to a snapshot row *)
  wf_ledger_owner : ∀ l,
    l ∈ Index.tool_ledger (db st) →
    ToolLedger.snapshot_id l ∈
      (Snapshots.snapshot_id <$> Index.snapshots (db st));
  (** no ledger row is numbered above the AUTOINCREMENT counter *)
  wf_sequence : ∀ l,
    l ∈ Index.tool_ledger (db st) →
    (ToolLedger.id l ≤ Index.sequence (db st))%Z
}.

(** [evolves st st']: calls of [snapshot], whether they return or raise,
    lead from [st] to [st'] ([get] and [last_snapshot_id] write
    nothing). *)
Inductive evolves (st : Store) : Store → Prop :=
  | evolves_refl : evolves st st
  | evolves_snapshot st' state parent_snapshot_id env :
      evolves st st' →
      evolves st (snapshot st' state parent_snapshot_id env).1.

(** The stores reached from a new root. *)
Definition reachable (st : Store) : Prop := evolves init st.

End Invariants.

(** ** When [snapshot] returns *)

Definition text_ok (s : str) : Prop := is_Some (Utf8.encode s).

Definition optional_text_ok (o : option str) : Prop :=
  ∀ s, o = Some s → text_ok s.

Definition tool_call_ok (tc : ToolCall.t) : Prop :=
  text_ok (ToolCall.name tc) ∧ text_ok (ToolCall.in_hash tc) ∧
  text_ok (ToolCall.out_hash tc) ∧ text_ok (ToolCall.status tc) ∧
  (- 2 ^ 63 ≤ ToolCall.latency_ms tc < 2 ^ 63)%Z ∧
  optional_text_ok (ToolCall.url tc).

(** Room for [n] more rows under the AUTOINCREMENT counter. *)
Definition sequence_ok (sequence : Z) (n : nat) : Prop :=
  n = 0%nat ∨ (sequence + Z.of_nat n < 2 ^ 63)%Z.

Section Accepts.
Context `{Models}.

(** What a call needs in order to return: text that encodes, a fresh
    identifier, ledger entries that SQLite takes.  Whether the parent
    names a snapshot is not part of it. *)
Definition snapshot_accepts (st : Store) (state : AgentState)
    (parent_snapshot_id : option str) (env : Env) : Prop :=
  text_ok (to_json state) ∧
  text_ok (uuid4 env) ∧
  optional_text_ok parent_snapshot_id ∧
  text_ok (sha256_text (to_json state)) ∧
  Forall (λ r, Snapshots.snapshot_id r ≠ uuid4 env)
    (Index.snapshots (db st)) ∧
  Forall tool_call_ok (tool_ledger state) ∧
  sequence_ok (Index.sequence (db st)) (length (tool_ledger state)).

End Accepts.

(** ** The constructor *)

Module Root.
(** What the root directory holds when the constructor runs: the
    directory [blobs], if it exists, and the file [index.sqlite], if it
    exists, with those of its two tables that exist.  The table
    [tool_ledger] comes with its AUTOINCREMENT counter.  A root where
    [blobs] is a file, or where [index.sqlite] is not a database, makes
    the constructor raise and is not part of the model; a table that
    exists is taken to have the columns of this program. *)
Record database := {
  snapshots : option (list Snapshots.row);
  tool_ledger : option (list ToolLedger.row * Z)
}.

Record t := {
  blobs : option (gmap str bytes);
  index_sqlite : option database
}.

(** A path where nothing exists yet. *)
Definition absent : t := {| blobs := None; index_sqlite := None |}.
End Root.

(** [os.makedirs(path, exist_ok=True)] *)
Definition makedirs (dir : option (gmap str bytes)) : gmap str bytes :=
  match dir with
  | Some files => files
  | None => ∅
  end.

(** [CREATE TABLE IF NOT EXISTS] *)
Definition create_table_if_not_exists {A} (new : A) (table : option A) : A :=
  match table with
  | Some rows => rows
  | None => new
  end.

(** [sqlite3.connect(db_path)] creates the file when there is none. *)
Definition _init_db (file : option Root.database) : Index.t :=
  let database :=
    match file with
    | Some database => database
    | None => {| Root.snapshots := None; Root.tool_ledger := None |}
    end in
  let snapshots :=
    create_table_if_not_exists [] (Root.snapshots database) in
  let tool_ledger :=
    create_table_if_not_exists ([], 0%Z) (Root.tool_ledger database) in
  {| Index.snapshots := snapshots;
     Index.tool_ledger := tool_ledger.1;
     Index.sequence := tool_ledger.2 |}.

Definition __init__ (root : Root.t) : Store :=
  {| blob_dir := makedirs (Root.blobs root);
     db := _init_db (Root.index_sqlite root) |}.

(** The root directory of a store, as the next constructor finds it. *)
Definition root_of (st : Store) : Root.t :=
  {| Root.blobs := Some (blob_dir st);
     Root.index_sqlite :=
       Some {| Root.snapshots := Some (Index.snapshots (db st));
               Root.tool_ledger :=
                 Some (Index.tool_ledger (db st), Index.sequence (db st)) |} |}.

(** ** More that the index keeps *)

Record index_inv (st : Store) : Prop := {
  (** every identifier of the index is text that encodes *)
  inv_identifier : ∀ r,
    r ∈ Index.snapshots (db st) → text_ok (Snapshots.snapshot_id r);
  (** both digests of a row are the same *)
  inv_hashes : ∀ r,
    r ∈ Index.snapshots (db st) →
    Snapshots.state_hash r = Snapshots.state_blob_hash r;
  (** the ledger rows are numbered 1, 2, ... in the order of insertion *)
  inv_ledger_ids : ∀ (i : nat) l,
    Index.tool_ledger (db st) !! i = Some l →
    ToolLedger.id l = (Z.of_nat i + 1)%Z;
  (** and the AUTOINCREMENT counter is their number *)
  inv_sequence :
    Index.sequence (db st) = Z.of_nat (length (Index.tool_ledger (db st)))
}.

(** ** The moments of a call

    What the root directory holds after each statement of [snapshot] that
    writes to it or runs on the connection, in the order in which the
    method has them: after [_write_blob], after each [c.execute], after
    [conn.commit()].  It is what another process finds at that moment,
    and what is left when the process stops there. *)

(** The statements that [snapshot] runs on its connection, in order: the
    INSERT of the snapshot row, the INSERT of each ledger entry, the
    commit. *)
Definition snapshot_statements (snap_id : str)
    (parent_snapshot_id : option str) (state_hash blob_hash : str)
    (now : timestamp) (ledger : list ToolCall.t) : list (Transaction ()) :=
  execute (λ ix, insert_snapshot ix
    {| Snapshots.snapshot_id := snap_id;
       Snapshots.parent_snapshot_id := parent_snapshot_id;
       Snapshots.state_hash := state_hash;
       Snapshots.state_blob_hash := blob_hash;
       Snapshots.created_at := now |})
  :: ((λ tc, execute (λ ix, insert_tool_call ix snap_id tc)) <$> ledger)
  ++ [commit].

(** The connection after each statement, up to the end or to the statement
    that raises. *)
Fixpoint moments (statements : list (Transaction ())) (conn : Connection)
    : list Connection :=
  match statements with
  | [] => []
  | statement :: rest =>
      match statement conn with
      | (conn', Ok _) => conn' :: moments rest conn'
      | (conn', Raise _) => [conn']
      end
  end.

(** The root directory, given the files of [blobs] and a connection: the
    file [index.sqlite] holds what the connection has committed. *)
Definition on_disk (blobs : gmap str bytes) (conn : Connection) : Store :=
  {| blob_dir := blobs; db := committed conn |}.

Section Moments.
Context `{Models}.

(** The root directory after each statement of [snapshot]: none when the
    text does not encode; otherwise first the one that [_write_blob]
    leaves, then the ones of the statements on the connection. *)
Definition snapshot_moments (st : Store) (state : AgentState)
    (parent_snapshot_id : option str) (env : Env) : list Store :=
  let state_json := to_json state in
  let state_hash := sha256_text state_json in
  match Utf8.encode state_json with
  | None => []
  | Some data =>
      let '(st1, blob_hash) := _write_blob st data in
      let snap_id := uuid4 env in
      st1 ::
      (on_disk (blob_dir st1) <$>
         moments
           (snapshot_statements snap_id parent_snapshot_id state_hash
              blob_hash (time env) (tool_ledger state))
           (connect (db st1)))
  end.

(** The index once a call has committed: the old rows, then the snapshot
    row and the rows of the ledger. *)
Definition committed_index (st : Store) (state : AgentState)
    (parent_snapshot_id : option str) (env : Env) : Index.t :=
  {| Index.snapshots :=
       Index.snapshots (db st) ++ [new_row state parent_snapshot_id env];
     Index.tool_ledger :=
       Index.tool_ledger (db st) ++
       ledger_rows (Index.sequence (db st) + 1) (uuid4 env)
         (tool_ledger state);
     Index.sequence :=
       (Index.sequence (db st) + Z.of_nat (length (tool_ledger state)))%Z |}.

End Moments.

(** ** A small instance, for running the model

    States are given by their serialization and their ledger; the digest is
    a stand-in without collisions; every text parses, to itself. *)
Module Demo.

Definition models : Models :=
  {| AgentState := str * list ToolCall.t;
     to_json := fst;
     tool_ledger := snd;
     sha256_text := λ text, str_of_string "#" ++ text |}.

Definition json : JsonLib :=
  {| Json := str; json_loads := Ok |}.

Definition search : ToolCall.t :=
  {| ToolCall.name := str_of_string "search";
     ToolCall.in_hash := str_of_string "a1";
     ToolCall.out_hash := str_of_string "b2";
     ToolCall.status := str_of_string "ok";
     ToolCall.latency_ms := 120;
     ToolCall.url := None;
     ToolCall.created_at := 5 |}.

Definition fetch : ToolCall.t :=
  {| ToolCall.name := str_of_string "fetch";
     ToolCall.in_hash := str_of_string "c3";
     ToolCall.out_hash := str_of_string "d4";
     ToolCall.status := str_of_string "ok";
     ToolCall.latency_ms := 80;
     ToolCall.url := Some (str_of_string "https://example.org");
     ToolCall.created_at := 7 |}.

(** An entry whose latency does not fit a 64-bit integer. *)
Definition slow : ToolCall.t :=
  {| ToolCall.name := str_of_string "slow";
     ToolCall.in_hash := str_of_string "e5";
     ToolCall.out_hash := str_of_string "f6";
     ToolCall.status := str_of_string "ok";
     ToolCall.latency_ms := 2 ^ 63;
     ToolCall.url := None;
     ToolCall.created_at := 8 |}.

(** The text [{"step":1}]; 34 is the code point of the quotation mark. *)
Definition step1 : str :=
  str_of_string "{" ++ [34] ++ str_of_string "step" ++ [34] ++
  str_of_string ":1}".

Definition stateA : @AgentState models := (step1, [search; fetch]).

Definition stateB : @AgentState models := (step1, [search; slow; fetch]).

Definition s1 : str := str_of_string "s1".
Definition s2 : str := str_of_string "s2".

Definition env1 : Env := {| uuid4 := s1; time := 10 |}.
Definition env2 : Env := {| uuid4 := s2; time := 20 |}.

(** An identifier and a parent that name no snapshot, and a [str] that
    holds a lone surrogate. *)
Definition nope : str := str_of_string "nonexistent-id".
Definition ghost : str := str_of_string "ghost".
Definition surrogate : str := [0xD800].

(** The bytes of a text that encodes. *)
Definition payload (text : str) : bytes := default [] (Utf8.encode text).

(** The store after [snapshot(stateA)] on a new root. *)
Definition store1 : Store := (@snapshot models init stateA None env1).1.

(** Then after [snapshot(stateA, parent_snapshot_id="s1")]. *)
Definition store2 : Store :=
  (@snapshot models store1 stateA (Some s1) env2).1.

(** Or after [snapshot(stateA, parent_snapshot_id="ghost")] instead. *)
Definition store2' : Store :=
  (@snapshot models store1 stateA (Some ghost) env2).1.

(** A clock that has run backwards, and a second state. *)
Definition env0 : Env := {| uuid4 := s2; time := 3 |}.

Definition step2 : str := str_of_string "[2]".

Definition stateC : @AgentState models := (step2, []).

(** A state with a new text whose ledger SQLite does not take. *)
Definition stateD : @AgentState models := (step2, [slow]).

End Demo.

(** * Properties *)

(** ** The codec *)
Module Utf8Facts.
Import Utf8.

Lemma lor_disjoint a b n : a mod 2 ^ n = 0 → b < 2 ^ n → N.lor a b = a + b.
Proof.
  intros Ha Hb.
  assert (Hl : N.land a b = 0).
  { apply N.bits_inj_0. intros m. rewrite N.land_spec.
    destruct (N.lt_ge_cases m n) as [Hm | Hm].
    - rewrite <- (N.mod_pow2_bits_low a n m Hm), Ha, N.bits_0. reflexivity.
    - rewrite <- (N.mod_small b (2 ^ n) Hb), (N.mod_pow2_bits_high b n m Hm).
      apply andb_false_r. }
  rewrite (N.add_nocarry_lxor _ _ Hl). symmetry. apply N.lxor_lor, Hl.
Qed.

Lemma to_N_octet n : n < 256 → Byte.to_N (octet n) = n.
Proof.
  intros Hn. unfold octet. destruct (Byte.of_N n) as [b|] eqn:E.
  - apply Byte.to_of_N, E.
  - apply Byte.of_N_None_iff in E. lia.
Qed.

Ltac divmod_lia :=
  cbn [N.pow Pos.pow Pos.iter Pos.mul Pos.add Pos.succ] in *;
  zify; Z.to_euclidean_division_equations; lia.

Lemma tail_octet x : x < 64 → Byte.to_N (octet (N.lor 0x80 x)) = 0x80 + x.
Proof.
  intros Hx. rewrite (lor_disjoint 0x80 x 6) by (reflexivity || exact Hx).
  apply to_N_octet. lia.
Qed.

Lemma lead_octet m y k :
  m mod 2 ^ k = 0 → y < 2 ^ k → m + y < 256 →
  Byte.to_N (octet (N.lor m y)) = m + y.
Proof.
  intros Hm Hy Hb. rewrite (lor_disjoint m y k Hm Hy). apply to_N_octet, Hb.
Qed.

Lemma mask_lead m y k :
  m mod 2 ^ k = 0 → y < 2 ^ k → N.land (m + y) (N.ones k) = y.
Proof.
  intros Hm Hy. rewrite N.land_ones, N.Div0.add_mod, Hm, N.add_0_l.
  rewrite N.Div0.mod_mod. apply N.mod_small, Hy.
Qed.

Lemma join_bits hi lo k :
  lo < 2 ^ k → N.lor (N.shiftl hi k) lo = hi * 2 ^ k + lo.
Proof.
  intros Hlo. rewrite N.shiftl_mul_pow2.
  apply lor_disjoint with k; [apply N.Div0.mod_mul | exact Hlo].
Qed.

Ltac range_cases :=
  repeat match goal with
    | H : context [N.ltb ?a ?b] |- _ => destruct (N.ltb_spec a b)
    | H : context [N.leb ?a ?b] |- _ => destruct (N.leb_spec a b)
    end; simpl in *.

(** Decide the test at the head of the goal from the range of [ch]. *)
Ltac head_test :=
  match goal with
  | |- (if ?c then _ else _) = _ =>
      let E := fresh "E" in
      destruct c eqn:E;
      rewrite ?andb_true_iff, ?andb_false_iff,
        ?N.ltb_lt, ?N.ltb_ge, ?N.leb_le, ?N.leb_gt in E;
      try (exfalso; divmod_lia)
  end.

Ltac by_arithmetic m k :=
  rewrite (lead_octet m _ k) by (reflexivity || divmod_lia);
  unfold continuation, between, low6;
  rewrite !tail_octet by divmod_lia;
  change 63 with (N.ones 6);
  rewrite !(mask_lead 0x80 _ 6) by (reflexivity || divmod_lia);
  rewrite (mask_lead m _ k) by (reflexivity || divmod_lia);
  repeat match goal with
    | |- context [N.eqb ?a ?b] => destruct (N.eqb_spec a b)
    end;
  repeat head_test;
  rewrite ?(join_bits _ _ 6) by divmod_lia;
  rewrite ?(join_bits _ _ 12) by divmod_lia;
  rewrite ?(join_bits _ _ 18) by divmod_lia;
  do 2 f_equal; divmod_lia.

(** The octets of a code point, followed by anything, decode to that code
    point and leave what follows. *)
Lemma decode1_encode_cp ch p rest :
  encode_cp ch = Some p → decode1 (p ++ rest) = Some (ch, rest).
Proof.
  unfold encode_cp. intros Hp.
  assert (H6 : N.land ch 0x3F = ch mod 64) by apply (N.land_ones ch 6).
  assert (H12 : N.land (N.shiftr ch 6) 0x3F = (ch / 64) mod 64).
  { rewrite N.shiftr_div_pow2. apply (N.land_ones _ 6). }
  assert (H18 : N.land (N.shiftr ch 12) 0x3F = (ch / 4096) mod 64).
  { rewrite N.shiftr_div_pow2. apply (N.land_ones _ 6). }
  pose proof (N.shiftr_div_pow2 ch 6) as S6.
  pose proof (N.shiftr_div_pow2 ch 12) as S12.
  pose proof (N.shiftr_div_pow2 ch 18) as S18.
  change (2 ^ 6) with 64 in S6. change (2 ^ 12) with 4096 in S12.
  change (2 ^ 18) with 262144 in S18.
  range_cases; try discriminate; injection Hp as <-; cbn [app decode1];
    rewrite ?H18, ?H12, ?H6, ?S18, ?S12, ?S6; clear H6 H12 H18 S6 S12 S18.
  1: { rewrite to_N_octet by lia.
       destruct (N.ltb_spec ch 0x80); [reflexivity | lia]. }
  all: change 31 with (N.ones 5); change 15 with (N.ones 4);
    change 7 with (N.ones 3).
  all: match goal with
       | |- context [N.lor 0xC0 _] => by_arithmetic 0xC0 5
       | |- context [N.lor 0xE0 _] => by_arithmetic 0xE0 4
       | |- context [N.lor 0xF0 _] => by_arithmetic 0xF0 3
       end.
Qed.

Lemma encode_cp_cons ch p : encode_cp ch = Some p → ∃ b p', p = b :: p'.
Proof.
  unfold encode_cp. intros Hp.
  repeat match type of Hp with
    | (if ?c then _ else _) = _ => destruct c
    end; inversion Hp; eauto.
Qed.

Lemma encode_cons ch s d :
  encode (ch :: s) = Some d →
  ∃ p d', encode_cp ch = Some p ∧ encode s = Some d' ∧ d = p ++ d'.
Proof.
  cbn [encode]. destruct (encode_cp ch) as [p|]; [|discriminate].
  destruct (encode s) as [d'|]; [|discriminate].
  intros [= <-]. eauto.
Qed.

Lemma decode_ignore_from_encode s : ∀ n d,
  encode s = Some d → (length d ≤ n)%nat → decode_ignore_from n d = s.
Proof.
  induction s as [|ch s IH]; intros n d Hd Hn.
  - injection Hd as <-. destruct n; reflexivity.
  - apply encode_cons in Hd as (p & d' & Hp & Hd' & ->).
    destruct (encode_cp_cons _ _ Hp) as (b & p' & ->).
    destruct n as [|n]; [simpl in Hn; lia|].
    cbn [decode_ignore_from app].
    change (b :: p' ++ d') with ((b :: p') ++ d').
    rewrite (decode1_encode_cp _ _ d' Hp). f_equal. apply IH; [exact Hd'|].
    simpl in Hn. rewrite length_app in Hn. lia.
Qed.

Lemma decode_from_encode s : ∀ n d,
  encode s = Some d → (length d ≤ n)%nat → decode_from n d = Some s.
Proof.
  induction s as [|ch s IH]; intros n d Hd Hn.
  - injection Hd as <-. destruct n; reflexivity.
  - apply encode_cons in Hd as (p & d' & Hp & Hd' & ->).
    destruct (encode_cp_cons _ _ Hp) as (b & p' & ->).
    destruct n as [|n]; [simpl in Hn; lia|].
    cbn [decode_from app].
    change (b :: p' ++ d') with ((b :: p') ++ d').
    rewrite (decode1_encode_cp _ _ d' Hp), IH; [reflexivity | exact Hd'|].
    simpl in Hn. rewrite length_app in Hn. lia.
Qed.

(** Text that encodes comes back unchanged from either decoder. *)
Lemma decode_ignore_encode s d : encode s = Some d → decode_ignore d = s.
Proof. intros Hd. apply decode_ignore_from_encode; [exact Hd | lia]. Qed.

Lemma decode_encode s d : encode s = Some d → decode d = Some s.
Proof. intros Hd. apply decode_from_encode; [exact Hd | lia]. Qed.

Lemma encode_inj s1 s2 d : encode s1 = Some d → encode s2 = Some d → s1 = s2.
Proof.
  intros H1 H2. rewrite <- (decode_ignore_encode _ _ H1).
  apply decode_ignore_encode, H2.
Qed.

End Utf8Facts.

(** ** The index *)

Lemma bind_text_Ok s s' : bind_text s = Ok s' → s' = s.
Proof. unfold bind_text. destruct (Utf8.encode s); congruence. Qed.

Lemma bind_optional_text_Ok o o' : bind_optional_text o = Ok o' → o' = o.
Proof.
  unfold bind_optional_text, mbind, result_bind, mret, result_ret.
  destruct o as [s|]; [|congruence].
  destruct (bind_text s) as [s'|] eqn:E; [|discriminate].
  apply bind_text_Ok in E. congruence.
Qed.

Lemma bind_integer_Ok z z' : bind_integer z = Ok z' → z' = z.
Proof. unfold bind_integer. case_match; congruence. Qed.

(** Split a hypothesis on a sequence of bindings that succeeded. *)
Ltac bound H :=
  repeat match type of H with
    | mbind _ ?r = Ok _ =>
        let E := fresh "E" in
        destruct r eqn:E; unfold mbind at 1, result_bind at 1 in H;
        [|discriminate H];
        first [ apply bind_text_Ok in E
              | apply bind_optional_text_Ok in E
              | apply bind_integer_Ok in E
              | idtac ];
        try subst
    end.

Lemma insert_snapshot_Ok ix r ix' :
  insert_snapshot ix r = Ok ix' →
  Forall (λ r', Snapshots.snapshot_id r' ≠ Snapshots.snapshot_id r)
    (Index.snapshots ix) ∧
  ix' = {| Index.snapshots := Index.snapshots ix ++ [r];
           Index.tool_ledger := Index.tool_ledger ix;
           Index.sequence := Index.sequence ix |}.
Proof.
  unfold insert_snapshot. intros Hi. bound Hi.
  destruct (existsb _ _) eqn:Hex; [discriminate|].
  injection Hi as <-. split; [|by destruct r].
  apply Forall_forall. intros r' Hr' Heq.
  apply not_true_iff_false in Hex. apply Hex, existsb_exists.
  exists r'. split; [by apply list_elem_of_In | by apply bool_decide_eq_true].
Qed.

Lemma insert_tool_call_Ok ix snap_id tc ix' :
  insert_tool_call ix snap_id tc = Ok ix' →
  ix' = {| Index.snapshots := Index.snapshots ix;
           Index.tool_ledger :=
             Index.tool_ledger ix ++
             [ledger_row (Index.sequence ix + 1) snap_id tc];
           Index.sequence := (Index.sequence ix + 1)%Z |}.
Proof.
  unfold insert_tool_call. intros Hi. bound Hi.
  case_match; [|discriminate]. by injection Hi as <-.
Qed.

Lemma execute_run statement conn :
  execute statement conn =
  match statement (working conn) with
  | Ok ix => ({| committed := committed conn; working := ix |}, Ok ())
  | Raise e => (conn, Raise e)
  end.
Proof. reflexivity. Qed.

(** The loop over the ledger commits nothing, and when it returns it has
    appended the rows of the ledger. *)
Lemma ledger_loop snap_id ledger : ∀ conn,
  let run := for_each ledger
               (λ tc, execute (λ ix, insert_tool_call ix snap_id tc)) conn in
  committed run.1 = committed conn ∧
  (∀ u, run.2 = Ok u →
     working run.1 =
       {| Index.snapshots := Index.snapshots (working conn);
          Index.tool_ledger :=
            Index.tool_ledger (working conn) ++
            ledger_rows (Index.sequence (working conn) + 1) snap_id ledger;
          Index.sequence :=
            (Index.sequence (working conn)
             + Z.of_nat (length ledger))%Z |}).
Proof.
  induction ledger as [|tc ledger IH]; intros conn; cbn.
  - split; [done|]. intros u _. destruct (working conn); cbn.
    f_equal; [by rewrite app_nil_r | lia].
  - unfold mbind, transaction_bind. rewrite execute_run.
    destruct (insert_tool_call (working conn) snap_id tc) as [ix|] eqn:E;
      [|by split].
    apply insert_tool_call_Ok in E as ->.
    match goal with
    | |- context [for_each ledger ?body ?c] =>
        destruct (IH c) as [Hc Hw]; revert Hc Hw;
        destruct (for_each ledger body c) as [c' r]; intros Hc Hw
    end.
    cbn in *. split; [done|]. intros u Hu. rewrite (Hw u Hu).
    f_equal; [by rewrite <- app_assoc | lia].
Qed.

(** ** [snapshot], case by case *)
Section SnapshotFacts.
Context `{Models}.

Lemma _write_blob_encoded st text data :
  Utf8.encode text = Some data →
  (_write_blob st data).2 = sha256_text text.
Proof.
  intros Hd. unfold _write_blob. cbn.
  by rewrite (Utf8Facts.decode_ignore_encode _ _ Hd).
Qed.

Lemma _write_blob_db st data : db (_write_blob st data).1 = db st.
Proof. unfold _write_blob. cbn. by destruct (blob_dir st !! _). Qed.

(** The transaction of [snapshot] on a new connection: when it returns,
    the snapshot row and the rows of the ledger are committed; when it
    raises, nothing is. *)
Lemma snapshot_transaction_spec ix snap_id parent sh bh now ledger :
  let run := snapshot_transaction snap_id parent sh bh now ledger
               (connect ix) in
  match run.2 with
  | Ok id =>
      id = snap_id ∧
      bind_text snap_id = Ok snap_id ∧
      Forall (λ r, Snapshots.snapshot_id r ≠ snap_id) (Index.snapshots ix) ∧
      committed run.1 =
        {| Index.snapshots :=
             Index.snapshots ix ++
             [ {| Snapshots.snapshot_id := snap_id;
                  Snapshots.parent_snapshot_id := parent;
                  Snapshots.state_hash := sh;
                  Snapshots.state_blob_hash := bh;
                  Snapshots.created_at := now |} ];
           Index.tool_ledger :=
             Index.tool_ledger ix ++
             ledger_rows (Index.sequence ix + 1) snap_id ledger;
           Index.sequence :=
             (Index.sequence ix + Z.of_nat (length ledger))%Z |}
  | Raise _ => committed run.1 = ix
  end.
Proof.
  unfold snapshot_transaction, mbind, transaction_bind.
  rewrite execute_run. cbn.
  destruct (insert_snapshot ix _) as [ix1|] eqn:E1; [|done].
  pose proof E1 as Hb. unfold insert_snapshot in Hb. cbn in Hb.
  destruct (bind_text snap_id) as [sid|] eqn:Hsid; [|discriminate].
  apply bind_text_Ok in Hsid as Hsid'. subst sid. clear Hb.
  apply insert_snapshot_Ok in E1 as [Hfresh ->]. cbn in Hfresh.
  match goal with
  | |- context [for_each ledger ?body ?c] =>
      destruct (ledger_loop snap_id ledger c) as [Hc Hw]; revert Hc Hw;
      destruct (for_each ledger body c) as [c' [[]|e]]; intros Hc Hw
  end; cbn in *; [|done].
  rewrite (Hw () eq_refl). done.
Qed.

Lemma snapshot_Ok st state parent env st' id :
  snapshot st state parent env = (st', Ok id) →
  ∃ data,
    Utf8.encode (to_json state) = Some data ∧
    id = uuid4 env ∧
    bind_text id = Ok id ∧
    blob_dir st' = blob_dir (_write_blob st data).1 ∧
    Forall (λ r, Snapshots.snapshot_id r ≠ id) (Index.snapshots (db st)) ∧
    db st' =
      {| Index.snapshots :=
           Index.snapshots (db st) ++ [new_row state parent env];
         Index.tool_ledger :=
           Index.tool_ledger (db st) ++
           ledger_rows (Index.sequence (db st) + 1) id (tool_ledger state);
         Index.sequence :=
           (Index.sequence (db st)
            + Z.of_nat (length (tool_ledger state)))%Z |}.
Proof.
  unfold snapshot. intros Hs.
  destruct (Utf8.encode (to_json state)) as [data|] eqn:Hd; [|discriminate].
  exists data. split; [reflexivity|].
  pose proof (_write_blob_encoded st _ _ Hd) as Hh.
  pose proof (_write_blob_db st data) as Hdb.
  destruct (_write_blob st data) as [st1 h]. cbn in Hh, Hdb. subst h.
  match type of Hs with
  | context [snapshot_transaction ?a ?b ?c ?d ?e ?f (connect ?ix)] =>
      pose proof (snapshot_transaction_spec ix a b c d e f) as Ht;
      revert Ht;
      destruct (snapshot_transaction a b c d e f (connect ix)) as [conn r];
      intros Ht
  end.
  injection Hs as <- ->. cbn in Ht. destruct Ht as (-> & Hb & Hfresh & Hc).
  cbn. rewrite Hdb in *. done.
Qed.

Lemma snapshot_Raise st state parent env st' e :
  snapshot st state parent env = (st', Raise e) →
  db st' = db st ∧
  (st' = st ∨
   ∃ data, Utf8.encode (to_json state) = Some data ∧
           st' = (_write_blob st data).1).
Proof.
  unfold snapshot. intros Hs.
  destruct (Utf8.encode (to_json state)) as [data|] eqn:Hd.
  - pose proof (_write_blob_db st data) as Hdb.
    destruct (_write_blob st data) as [st1 h] eqn:Hw. cbn in Hdb.
    match type of Hs with
    | context [snapshot_transaction ?a ?b ?c ?d ?e ?f (connect ?ix)] =>
        pose proof (snapshot_transaction_spec ix a b c d e f) as Ht;
        revert Ht;
        destruct (snapshot_transaction a b c d e f (connect ix)) as [conn r];
        intros Ht
    end.
    injection Hs as <- ->. cbn in Ht. cbn [db]. rewrite Ht.
    split; [done|]. right. exists data. split; [done|].
    rewrite Hw. by destruct st1.
  - injection Hs as <- _. auto.
Qed.

(** A blob write keeps what the directory holds. *)
Lemma _write_blob_lookup st data h d :
  blob_dir st !! h = Some d → blob_dir (_write_blob st data).1 !! h = Some d.
Proof.
  intros Hl. unfold _write_blob. cbn.
  destruct (blob_dir st !! sha256_text _) eqn:E; [done|]. cbn.
  rewrite lookup_insert_ne; [done|]. congruence.
Qed.

Lemma _write_blob_written st data :
  is_Some (blob_dir (_write_blob st data).1 !! (_write_blob st data).2).
Proof.
  unfold _write_blob. cbn.
  destruct (blob_dir st !! sha256_text _) eqn:E; [by rewrite E|]. cbn.
  rewrite lookup_insert_eq. eauto.
Qed.

Lemma _write_blob_present st data :
  is_Some (blob_dir st !! (_write_blob st data).2) →
  (_write_blob st data).1 = st.
Proof. unfold _write_blob. cbn. by intros [d ->]. Qed.

Lemma snapshot_blob_dir st state parent env :
  blob_dir (snapshot st state parent env).1 = blob_dir st ∨
  ∃ data, Utf8.encode (to_json state) = Some data ∧
          blob_dir (snapshot st state parent env).1
          = blob_dir (_write_blob st data).1.
Proof.
  destruct (snapshot st state parent env) as [st' [id|e]] eqn:Hs; cbn.
  - apply snapshot_Ok in Hs as (data & Hd & _ & _ & Hb & _). eauto.
  - apply snapshot_Raise in Hs as [_ [-> | (data & Hd & ->)]]; eauto.
Qed.

Lemma snapshot_lookup st state parent env h d :
  blob_dir st !! h = Some d →
  blob_dir (snapshot st state parent env).1 !! h = Some d.
Proof.
  intros Hl.
  destruct (snapshot_blob_dir st state parent env) as [-> | (? & _ & ->)];
    [done | by apply _write_blob_lookup].
Qed.

Lemma snapshot_rows st state parent env :
  Index.snapshots (db st) `prefix_of`
    Index.snapshots (db (snapshot st state parent env).1).
Proof.
  destruct (snapshot st state parent env) as [st' [id|e]] eqn:Hs; cbn.
  - apply snapshot_Ok in Hs as (_ & _ & _ & _ & _ & _ & ->). cbn.
    by apply prefix_app_r.
  - apply snapshot_Raise in Hs as [-> _]. done.
Qed.
End SnapshotFacts.

(** ** The rows of a ledger *)

Lemma ledger_rows_entry snap_id ledger : ∀ next,
  ToolLedger.entry <$> ledger_rows next snap_id ledger = ledger.
Proof.
  induction ledger as [|tc ledger IH]; intros next; cbn; [done|].
  rewrite IH. by destruct tc.
Qed.

Lemma ledger_rows_tagged snap_id ledger : ∀ next,
  Forall (λ r, ToolLedger.snapshot_id r = snap_id)
    (ledger_rows next snap_id ledger).
Proof. induction ledger; intros next; cbn; constructor; auto. Qed.

Lemma ledger_rows_ids snap_id ledger : ∀ next r,
  r ∈ ledger_rows next snap_id ledger →
  (next ≤ ToolLedger.id r < next + Z.of_nat (length ledger))%Z.
Proof.
  induction ledger as [|tc ledger IH]; intros next r Hr; cbn in *.
  - by apply elem_of_nil in Hr.
  - apply elem_of_cons in Hr as [-> | Hr]; [cbn; lia|].
    apply IH in Hr. lia.
Qed.

Lemma ledger_rows_increasing snap_id ledger : ∀ next,
  StronglySorted Z.lt (ToolLedger.id <$> ledger_rows next snap_id ledger).
Proof.
  induction ledger as [|tc ledger IH]; intros next; cbn; constructor; [done|].
  apply Forall_forall. intros i Hi.
  apply list_elem_of_fmap in Hi as (r & -> & Hr).
  apply ledger_rows_ids in Hr. lia.
Qed.

Lemma filter_none {A} (P : A → Prop) `{∀ x, Decision (P x)} (l : list A) :
  Forall (λ x, ¬ P x) l → filter P l = [].
Proof.
  induction 1 as [|x l Hx _ IH]; [done|].
  by rewrite filter_cons_False.
Qed.

Lemma filter_all {A} (P : A → Prop) `{∀ x, Decision (P x)} (l : list A) :
  Forall P l → filter P l = l.
Proof.
  induction 1 as [|x l Hx _ IH]; [done|].
  rewrite filter_cons_True by done. by rewrite IH.
Qed.

(** ** The invariant *)
Section InvariantFacts.
Context `{Models}.

Lemma init_wf : store_wf init.
Proof.
  split; cbn.
  - intros h data Hl. by rewrite lookup_empty in Hl.
  - intros r Hr. by apply elem_of_nil in Hr.
  - constructor.
  - intros l Hl. by apply elem_of_nil in Hl.
  - intros l Hl. by apply elem_of_nil in Hl.
Qed.

Lemma _write_blob_content st text data :
  Utf8.encode text = Some data →
  (∀ h d, blob_dir st !! h = Some d →
          ∃ t, Utf8.encode t = Some d ∧ sha256_text t = h) →
  ∀ h d, blob_dir (_write_blob st data).1 !! h = Some d →
         ∃ t, Utf8.encode t = Some d ∧ sha256_text t = h.
Proof.
  intros Hd Hst h d. unfold _write_blob. cbn.
  rewrite (Utf8Facts.decode_ignore_encode _ _ Hd).
  destruct (blob_dir st !! sha256_text text) eqn:E; [by apply Hst|]. cbn.
  rewrite lookup_insert. case_decide as Hh.
  - intros [= <-]. eauto.
  - apply Hst.
Qed.

Lemma _write_blob_wf st text data :
  Utf8.encode text = Some data → store_wf st →
  store_wf (_write_blob st data).1.
Proof.
  intros Hd [Hc He Hk Ho Hq]. split; rewrite ?_write_blob_db; try done.
  - by apply (_write_blob_content st text).
  - intros r Hr. destruct (He r Hr) as [d Hl].
    exists d. by apply _write_blob_lookup.
Qed.

Lemma snapshot_wf st state parent env :
  store_wf st → store_wf (snapshot st state parent env).1.
Proof.
  intros Hwf.
  destruct (snapshot st state parent env) as [st' [id|e]] eqn:Hs; cbn.
  - apply snapshot_Ok in Hs as (data & Hd & -> & _ & Hb & Hfresh & Hdb).
    pose proof (_write_blob_wf st _ _ Hd Hwf) as [Hc He _ _ _].
    destruct Hwf as [_ _ Hk Ho Hq].
    rewrite _write_blob_db in He.
    split; rewrite ?Hb, ?Hdb; cbn; try done.
    + intros r Hr. apply elem_of_app in Hr as [Hr | Hr]; [by apply He|].
      apply list_elem_of_singleton in Hr as ->. cbn.
      rewrite <- (_write_blob_encoded st _ _ Hd).
      apply _write_blob_written.
    + rewrite fmap_app. apply NoDup_app. split; [done|]. split.
      * intros i Hi Hi'. cbn in Hi'.
        apply list_elem_of_singleton in Hi' as ->.
        apply list_elem_of_fmap in Hi as (r & Hi & Hr).
        by apply (proj1 (Forall_forall _ _) Hfresh r).
      * cbn. apply NoDup_singleton.
    + intros l Hl. rewrite fmap_app, elem_of_app.
      apply elem_of_app in Hl as [Hl | Hl]; [left; by apply Ho|].
      right. cbn. apply list_elem_of_singleton.
      pose proof (ledger_rows_tagged (uuid4 env) (tool_ledger state)
                    (Index.sequence (db st) + 1)) as Ht.
      rewrite Forall_forall in Ht. by apply Ht.
    + intros l Hl. apply elem_of_app in Hl as [Hl | Hl].
      * apply Hq in Hl. lia.
      * apply ledger_rows_ids in Hl. lia.
  - apply snapshot_Raise in Hs as [_ [-> | (data & Hd & ->)]]; [done|].
    by apply (_write_blob_wf st (to_json state)).
Qed.

Lemma evolves_wf st st' : evolves st st' → store_wf st → store_wf st'.
Proof. induction 1; intros Hwf; [done | by apply snapshot_wf, IHevolves]. Qed.

Lemma reachable_wf st : reachable st → store_wf st.
Proof. intros Hr. apply (evolves_wf _ _ Hr), init_wf. Qed.
End InvariantFacts.


(** ** Reading back what [snapshot] wrote *)

Lemma find_app_found {A} (P : A → bool) (l l' : list A) x :
  find P l = Some x → find P (l ++ l') = Some x.
Proof.
  induction l as [|y l IH]; cbn; [discriminate|].
  destruct (P y); [done | exact IH].
Qed.

Lemma find_app_fresh {A} (P : A → bool) (l : list A) x :
  Forall (λ y, P y = false) l → P x = true → find P (l ++ [x]) = Some x.
Proof.
  intros Hl Hx. induction Hl as [|y l Hy _ IH]; cbn; [by rewrite Hx|].
  by rewrite Hy.
Qed.

Lemma find_prefix {A} (P : A → bool) (l l' : list A) x :
  l `prefix_of` l' → find P l = Some x → find P l' = Some x.
Proof. intros [k ->]. apply find_app_found. Qed.

Section ReadBack.
Context `{Models}.

Lemma snapshot_row_new st state parent env st' id :
  snapshot st state parent env = (st', Ok id) →
  snapshot_row st' id = Some (new_row state parent env).
Proof.
  intros Hs.
  apply snapshot_Ok in Hs as (data & _ & -> & _ & _ & Hfresh & Hdb).
  unfold snapshot_row. rewrite Hdb. cbn. apply find_app_fresh.
  - eapply Forall_impl; [exact Hfresh|]. intros r Hr.
    by apply bool_decide_eq_false.
  - by apply bool_decide_eq_true.
Qed.

Lemma evolves_rows st st' :
  evolves st st' →
  Index.snapshots (db st) `prefix_of` Index.snapshots (db st').
Proof.
  induction 1 as [|st' state parent env _ IH]; [done|].
  etrans; [exact IH | apply snapshot_rows].
Qed.

Lemma evolves_lookup st st' h d :
  evolves st st' → blob_dir st !! h = Some d → blob_dir st' !! h = Some d.
Proof.
  induction 1 as [|st' state parent env _ IH]; [done|].
  intros Hl. by apply snapshot_lookup, IH.
Qed.

Lemma snapshot_row_later st st' id r :
  evolves st st' → snapshot_row st id = Some r → snapshot_row st' id = Some r.
Proof. intros He. apply find_prefix, evolves_rows, He. Qed.

Lemma snapshot_row_id st id r :
  snapshot_row st id = Some r →
  r ∈ Index.snapshots (db st) ∧ Snapshots.snapshot_id r = id.
Proof.
  intros Hf. apply find_some in Hf as [Hin Hid].
  split; [by apply list_elem_of_In | by apply bool_decide_eq_true in Hid].
Qed.

(** Under its digest the store holds the bytes that were written. *)
Lemma _write_blob_stored st text data :
  collision_resistant → store_wf st →
  Utf8.encode text = Some data →
  blob_dir (_write_blob st data).1 !! sha256_text text = Some data.
Proof.
  intros Hcr Hwf Hd.
  pose proof (_write_blob_written st data) as [d Hl].
  rewrite (_write_blob_encoded st _ _ Hd) in Hl. rewrite Hl. f_equal.
  destruct (_write_blob_content st text data Hd (wf_blob_content _ Hwf)
              _ _ Hl) as (t & Ht & Hh).
  apply Hcr in Hh as ->. congruence.
Qed.

(** The ledger rows under the id of a call that returned. *)
Lemma ledger_rows_of_new st state parent env st' id :
  store_wf st →
  snapshot st state parent env = (st', Ok id) →
  ledger_rows_of st' id =
    ledger_rows (Index.sequence (db st) + 1) id (tool_ledger state).
Proof.
  intros Hwf Hs.
  apply snapshot_Ok in Hs as (data & _ & -> & _ & _ & Hfresh & Hdb).
  unfold ledger_rows_of. rewrite Hdb. cbn. rewrite filter_app.
  rewrite filter_none, filter_all; [done | apply ledger_rows_tagged |].
  apply Forall_forall. intros l Hl Htag.
  apply (wf_ledger_owner _ Hwf) in Hl. rewrite Htag in Hl.
  apply list_elem_of_fmap in Hl as (r & Hid & Hr).
  by apply (proj1 (Forall_forall _ _) Hfresh r).
Qed.
End ReadBack.

Lemma bind_text_returns s : text_ok s ↔ bind_text s = Ok s.
Proof.
  unfold text_ok, bind_text. by destruct (Utf8.encode s).
Qed.

Lemma bind_optional_text_returns o :
  optional_text_ok o ↔ bind_optional_text o = Ok o.
Proof.
  unfold optional_text_ok, bind_optional_text, mbind, result_bind.
  destruct o as [s|]; [|done].
  destruct (bind_text s) as [s'|] eqn:E.
  - apply bind_text_Ok in E as Hs. subst s'. split; [done|].
    intros _ ? [= <-]. by apply bind_text_returns.
  - split; [|done]. intros Hs. specialize (Hs s eq_refl).
    apply bind_text_returns in Hs. congruence.
Qed.

Lemma bind_integer_returns z :
  (- 2 ^ 63 ≤ z < 2 ^ 63)%Z ↔ bind_integer z = Ok z.
Proof.
  unfold bind_integer.
  destruct (Z.leb_spec (- 2 ^ 63) z), (Z.ltb_spec z (2 ^ 63)); cbn;
    split; try done; lia.
Qed.

(** Split a hypothesis on bindings that succeeded, keeping why. *)
Ltac bound_ok H :=
  repeat match type of H with
    | mbind _ ?r = Ok _ =>
        let E := fresh "E" in
        destruct r eqn:E; unfold mbind at 1, result_bind at 1 in H;
        [|discriminate H];
        first [ apply bind_text_Ok in E as ?; subst;
                apply bind_text_returns in E
              | apply bind_optional_text_Ok in E as ?; subst;
                apply bind_optional_text_returns in E
              | apply bind_integer_Ok in E as ?; subst;
                apply bind_integer_returns in E ]
    end.

Lemma insert_snapshot_returns ix r :
  (text_ok (Snapshots.snapshot_id r) ∧
   optional_text_ok (Snapshots.parent_snapshot_id r) ∧
   text_ok (Snapshots.state_hash r) ∧
   text_ok (Snapshots.state_blob_hash r) ∧
   Forall (λ r', Snapshots.snapshot_id r' ≠ Snapshots.snapshot_id r)
     (Index.snapshots ix)) ↔
  ∃ ix', insert_snapshot ix r = Ok ix'.
Proof.
  split.
  - intros (Hid & Hp & Hsh & Hbh & Hfresh). unfold insert_snapshot.
    apply bind_text_returns in Hid, Hsh, Hbh.
    apply bind_optional_text_returns in Hp.
    rewrite Hid, Hp, Hsh, Hbh. cbn.
    destruct (existsb _ _) eqn:Hex; [|eauto].
    apply existsb_exists in Hex as (r' & Hin & Heq).
    apply list_elem_of_In in Hin. apply bool_decide_eq_true in Heq.
    by destruct (proj1 (Forall_forall _ _) Hfresh r' Hin).
  - intros [ix' Hi]. pose proof Hi as Hi'.
    apply insert_snapshot_Ok in Hi' as [Hfresh _].
    unfold insert_snapshot in Hi. bound_ok Hi. done.
Qed.

Lemma insert_tool_call_returns ix snap_id tc :
  (text_ok snap_id ∧ tool_call_ok tc ∧ (Index.sequence ix < 2 ^ 63 - 1)%Z) ↔
  ∃ ix', insert_tool_call ix snap_id tc = Ok ix'.
Proof.
  split.
  - intros (Hid & (Hn & Hi & Ho & Hs & Hl & Hu) & Hq).
    unfold insert_tool_call.
    apply bind_text_returns in Hid, Hn, Hi, Ho, Hs.
    apply bind_integer_returns in Hl. apply bind_optional_text_returns in Hu.
    rewrite Hid, Hn, Hi, Ho, Hs, Hl, Hu. cbn.
    destruct (Z.ltb_spec (Index.sequence ix) (2 ^ 63 - 1)); [eauto | lia].
  - intros [ix' Hi]. unfold insert_tool_call in Hi. bound_ok Hi.
    destruct (Z.ltb_spec (Index.sequence ix) (2 ^ 63 - 1)); [|discriminate].
    done.
Qed.

Lemma ledger_loop_returns snap_id ledger : ∀ conn,
  ((ledger = [] ∨ text_ok snap_id) ∧ Forall tool_call_ok ledger ∧
   sequence_ok (Index.sequence (working conn)) (length ledger)) ↔
  (for_each ledger
     (λ tc, execute (λ ix, insert_tool_call ix snap_id tc)) conn).2 = Ok ().
Proof.
  induction ledger as [|tc ledger IH]; intros conn.
  - cbn. split; [done|]. intros _. split; [by left|]. split; [done | by left].
  - cbn [for_each]. unfold mbind, transaction_bind. rewrite execute_run.
    pose proof (insert_tool_call_returns (working conn) snap_id tc) as Hstep.
    destruct (insert_tool_call (working conn) snap_id tc) as [ix|] eqn:E.
    + destruct (proj2 Hstep (ex_intro _ ix eq_refl)) as (Hid & Htc & Hq).
      apply insert_tool_call_Ok in E as ->.
      rewrite <- IH. cbn. unfold sequence_ok. cbn. split.
      * intros (_ & Hall & [? | Hn]); [done|].
        apply Forall_cons in Hall as [_ Hall].
        split; [by right|]. split; [done|]. right. lia.
      * intros (_ & Hall & [Hn | Hn]).
        -- split; [by right|]. split; [by constructor|]. right. lia.
        -- split; [by right|]. split; [by constructor|]. right. lia.
    + cbn. split; [|done]. intros ([? | Hid] & Hall & [? | Hn]); try done.
      apply Forall_cons in Hall as [Htc _].
      destruct (proj1 Hstep) as [ix' ?]; [|done].
      split; [done|]. split; [done|]. cbn in Hn. lia.
Qed.

Section Returns.
Context `{Models}.

Lemma snapshot_returns st state parent env :
  snapshot_accepts st state parent env ↔
  ∃ st', snapshot st state parent env = (st', Ok (uuid4 env)).
Proof.
  unfold snapshot_accepts, snapshot, text_ok at 1.
  destruct (Utf8.encode (to_json state)) as [data|] eqn:Hd.
  2: { split; [by intros [[? ?] _] | by intros [? ?]]. }
  pose proof (_write_blob_encoded st _ _ Hd) as Hh.
  pose proof (_write_blob_db st data) as Hdb. revert Hh Hdb.
  destruct (_write_blob st data) as [st1 h]. cbn. intros -> Hdb.
  unfold snapshot_transaction, mbind, transaction_bind.
  rewrite execute_run. cbn. rewrite Hdb.
  match goal with
  | |- context [insert_snapshot ?ix ?r] =>
      pose proof (insert_snapshot_returns ix r) as Hrow;
      destruct (insert_snapshot ix r) as [ix1|] eqn:E1
  end; cbn in Hrow.
  - destruct (proj2 Hrow (ex_intro _ ix1 eq_refl))
      as (Hid & Hp & Hsh & _ & Hfresh).
    apply insert_snapshot_Ok in E1 as [_ ->].
    match goal with
    | |- context [for_each ?l ?body ?c] =>
        pose proof (ledger_loop_returns (uuid4 env) l c) as Hloop;
        revert Hloop; destruct (for_each l body c) as [c' [[]|e]]
    end; cbn; intros Hloop.
    + destruct (proj2 Hloop eq_refl) as (_ & Hall & Hq).
      split; [intros _; eauto | intros _; by repeat split].
    + split; [|by intros [? ?]].
      intros (_ & _ & _ & _ & _ & Hall & Hq).
      assert (Hno : Raise e = Ok ()); [|done].
      apply Hloop. split; [by right | done].
  - split; [|by intros [? ?]].
    intros (_ & Hid & Hp & Hsh & Hfresh & _).
    destruct (proj1 Hrow) as [? ?]; done.
Qed.

End Returns.


(** ** The latest snapshot *)

Lemma head_insert_desc r l :
  head (insert_desc r l) =
  match head l with
  | Some r' =>
      if (Snapshots.created_at r' <=? Snapshots.created_at r)%Z
      then Some r else Some r'
  | None => Some r
  end.
Proof. destruct l as [|r' l]; cbn; [done|]. by case_match. Qed.

(** The first row in descending order is a row of the table and no row is
    later than it. *)
Lemma head_order_by_created_at_desc l :
  match head (order_by_created_at_desc l) with
  | Some m =>
      m ∈ l ∧
      ∀ r, r ∈ l → (Snapshots.created_at r ≤ Snapshots.created_at m)%Z
  | None => l = []
  end.
Proof.
  induction l as [|r l IH]; [done|].
  change (order_by_created_at_desc (r :: l))
    with (insert_desc r (order_by_created_at_desc l)).
  rewrite head_insert_desc.
  destruct (head (order_by_created_at_desc l)) as [m|].
  - destruct IH as [Hm Hmax].
    destruct (Z.leb_spec (Snapshots.created_at m) (Snapshots.created_at r));
      cbn.
    + split; [apply elem_of_cons; by left|]. intros r' Hr'.
      apply elem_of_cons in Hr' as [-> | Hr']; [lia|].
      apply Hmax in Hr'. lia.
    + split; [apply elem_of_cons; by right|]. intros r' Hr'.
      apply elem_of_cons in Hr' as [-> | Hr']; [lia | by apply Hmax].
  - subst l. split; [by apply list_elem_of_singleton|]. intros r' Hr'.
    apply list_elem_of_singleton in Hr' as ->. lia.
Qed.


(** ** The moments of a call *)

(** The loop over the ledger, statement by statement: nothing is
    committed on the way. *)
Lemma ledger_moments snap_id ledger rest : ∀ conn,
  let body := λ tc, execute (λ ix, insert_tool_call ix snap_id tc) in
  let run := for_each ledger body conn in
  ∃ cs,
    Forall (λ c, committed c = committed conn) cs ∧
    match run.2 with
    | Ok _ =>
        moments ((body <$> ledger) ++ rest) conn = cs ++ moments rest run.1 ∧
        length cs = length ledger
    | Raise _ =>
        moments ((body <$> ledger) ++ rest) conn = cs ∧
        (0 < length cs ≤ length ledger)%nat
    end.
Proof.
  induction ledger as [|tc ledger IH]; intros conn; cbn.
  - by exists [].
  - unfold mbind, transaction_bind. rewrite execute_run.
    destruct (insert_tool_call (working conn) snap_id tc) as [ix|e] eqn:E;
      cbn.
    + destruct (IH {| committed := committed conn; working := ix |})
        as (cs & Hcs & Hrun). cbn in Hcs, Hrun.
      exists ({| committed := committed conn; working := ix |} :: cs).
      split; [by constructor|].
      destruct (for_each ledger _ _) as [c' [[]|e']]; cbn in *.
      * destruct Hrun as [-> <-]. done.
      * destruct Hrun as [-> Hlen]. split; [done | lia].
    + exists [conn]. split; [by constructor|]. cbn. split; [done | lia].
Qed.

(** The transaction of [snapshot], statement by statement: the commit is
    the last moment when it returns, and is not reached when it raises. *)
Lemma snapshot_transaction_moments ix snap_id parent sh bh now ledger :
  let run := snapshot_transaction snap_id parent sh bh now ledger
               (connect ix) in
  let ms := moments (snapshot_statements snap_id parent sh bh now ledger)
              (connect ix) in
  ∃ cs,
    Forall (λ c, committed c = ix) cs ∧
    match run.2 with
    | Ok _ => ms = cs ++ [run.1] ∧ length cs = S (length ledger)
    | Raise _ => ms = cs ∧ (0 < length cs ≤ S (length ledger))%nat
    end.
Proof.
  unfold snapshot_transaction, snapshot_statements, mbind, transaction_bind.
  cbn [moments]. rewrite execute_run. cbn.
  destruct (insert_snapshot ix _) as [ix1|e1]; cbn.
  - destruct (ledger_moments snap_id ledger [commit]
                {| committed := ix; working := ix1 |})
      as (cs & Hcs & Hrun). cbn in Hcs, Hrun.
    exists ({| committed := ix; working := ix1 |} :: cs).
    split; [by constructor|].
    destruct (for_each ledger _ _) as [c' [[]|e']]; cbn in *.
    + destruct Hrun as [-> <-]. done.
    + destruct Hrun as [-> Hlen]. split; [done | lia].
  - exists [connect ix]. split; [by constructor|]. cbn. split; [done | lia].
Qed.

Lemma on_disk_uncommitted blobs ix cs :
  Forall (λ c, committed c = ix) cs →
  on_disk blobs <$> cs
  = replicate (length cs) {| blob_dir := blobs; db := ix |}.
Proof.
  induction 1 as [|c cs Hc _ IH]; cbn; [done|].
  unfold on_disk at 1. by rewrite Hc, IH.
Qed.

Section MomentFacts.
Context `{Models}.

(** The moments of a call that returns: the store that [_write_blob]
    leaves, unchanged through the inserts, and at the commit the store
    that the call leaves. *)
Lemma snapshot_moments_Ok st state parent env st' id :
  snapshot st state parent env = (st', Ok id) →
  ∃ data,
    Utf8.encode (to_json state) = Some data ∧
    snapshot_moments st state parent env
    = replicate (length (tool_ledger state) + 2) (_write_blob st data).1
      ++ [st'].
Proof.
  unfold snapshot, snapshot_moments. intros Hs.
  destruct (Utf8.encode (to_json state)) as [data|]; [|discriminate].
  exists data. split; [done|].
  destruct (_write_blob st data) as [st1 h]. cbn [fst].
  match type of Hs with
  | context [snapshot_transaction ?a ?b ?c ?d ?e ?f (connect ?ix)] =>
      destruct (snapshot_transaction_moments ix a b c d e f)
        as (cs & Hcs & Hrun);
      revert Hrun;
      destruct (snapshot_transaction a b c d e f (connect ix)) as [conn r]
  end.
  injection Hs as <- ->. cbn. intros [-> Hlen].
  rewrite fmap_app, (on_disk_uncommitted _ _ _ Hcs), Hlen. cbn.
  replace (length (tool_ledger state) + 2)%nat
    with (S (S (length (tool_ledger state)))) by lia.
  cbn. by destruct st1.
Qed.

(** The moments of a call that raises: the index is the old one at each,
    and from [_write_blob] on the store is the one that the call leaves. *)
Lemma snapshot_moments_Raise st state parent env st' e :
  snapshot st state parent env = (st', Raise e) →
  ∃ k : nat,
    snapshot_moments st state parent env = replicate k st' ∧
    (k ≤ length (tool_ledger state) + 2)%nat ∧
    (k = 0%nat → st' = st).
Proof.
  unfold snapshot, snapshot_moments. intros Hs.
  destruct (Utf8.encode (to_json state)) as [data|].
  2: { injection Hs as <- _. exists 0%nat.
       split; [done|]. split; [lia | done]. }
  destruct (_write_blob st data) as [st1 h].
  match type of Hs with
  | context [snapshot_transaction ?a ?b ?c ?d ?e ?f (connect ?ix)] =>
      destruct (snapshot_transaction_moments ix a b c d e f)
        as (cs & Hcs & Hrun);
      pose proof (snapshot_transaction_spec ix a b c d e f) as Ht;
      revert Hrun Ht;
      destruct (snapshot_transaction a b c d e f (connect ix)) as [conn r]
  end.
  injection Hs as <- ->. cbn. intros [-> Hlen] ->.
  exists (S (length cs)). rewrite (on_disk_uncommitted _ _ _ Hcs). cbn.
  split; [by destruct st1|]. split; [lia | done].
Qed.

(** The last moment of a call is the store that it leaves. *)
Lemma snapshot_moments_last st state parent env :
  last (st :: snapshot_moments st state parent env)
  = Some (snapshot st state parent env).1.
Proof.
  destruct (snapshot st state parent env) as [st' [id|e]] eqn:Hs; cbn [fst].
  - apply snapshot_moments_Ok in Hs as (data & _ & ->).
    by rewrite app_comm_cons, last_snoc.
  - apply snapshot_moments_Raise in Hs as (k & -> & _ & Hk).
    destruct k as [|k]; [by rewrite Hk|].
    change (st :: replicate (S k) st') with ([st] ++ replicate (S k) st').
    rewrite last_app. replace (S k) with (k + 1)%nat by lia.
    rewrite replicate_add. cbn. by rewrite last_snoc.
Qed.

End MomentFacts.


(** ** The instance *)

Lemma demo_collision_resistant : @collision_resistant Demo.models.
Proof. intros text1 text2 Heq. cbn in Heq. by simplify_list_eq. Qed.

Lemma demo_store1_wf : @store_wf Demo.models Demo.store1.
Proof. apply snapshot_wf, init_wf. Qed.

(** A call that raises in the middle of the ledger, at the entry whose
    latency SQLite does not take: the blob directory and the index stay
    what the first call left. *)
Example snapshot_raises_midway :
  @snapshot Demo.models Demo.store1 Demo.stateB None Demo.env2
  = (Demo.store1, Raise OverflowError).
Proof. vm_compute. reflexivity. Qed.

(** The scenario of the specification: one blob, two snapshots, the second
    the latest. *)
Example scenario :
  size (blob_dir Demo.store2) = 1%nat ∧
  Snapshots.snapshot_id <$> Index.snapshots (db Demo.store2)
  = [Demo.s1; Demo.s2] ∧
  last_snapshot_id Demo.store2 = Some Demo.s2.
Proof. vm_compute. done. Qed.

(** The moments of the first snapshot of the scenario, each as the number
    of blobs, of snapshot rows and of ledger rows: the blob is there from
    the first moment on, the rows come together with the commit. *)
Example moments_of_scenario :
  (λ st, (size (blob_dir st), length (Index.snapshots (db st)),
          length (Index.tool_ledger (db st))))
    <$> @snapshot_moments Demo.models init Demo.stateA None Demo.env1
  = [(1, 0, 0); (1, 0, 0); (1, 0, 0); (1, 0, 0); (1, 1, 2)]%nat.
Proof. vm_compute. reflexivity. Qed.

(** And of a call that raises at its ledger entry: the new blob stays, no
    row is added. *)
Example moments_of_raising_call :
  (λ st, (size (blob_dir st), length (Index.snapshots (db st)),
          length (Index.tool_ledger (db st))))
    <$> @snapshot_moments Demo.models Demo.store1 Demo.stateD None Demo.env2
  = [(2, 1, 2); (2, 1, 2); (2, 1, 2)]%nat.
Proof. vm_compute. reflexivity. Qed.

(** * The properties of the specification *)

(** C1. Round trip: [get] on the identifier that [snapshot(S)] returned
    gives what [json.loads] gives on [S.to_json()], value or exception.
    The store is one that calls of [snapshot] have built, and the digest
    has no collisions. *)
Theorem get_snapshot_roundtrip `{Models} `{JsonLib} st state parent env st' id :
  collision_resistant → store_wf st →
  snapshot st state parent env = (st', Ok id) →
  get st' id = json_loads (to_json state).
Proof.
  intros Hcr Hwf Hs.
  pose proof (snapshot_row_new _ _ _ _ _ _ Hs) as Hrow.
  apply snapshot_Ok in Hs as (data & Hd & -> & Hb & Hblob & _ & _).
  unfold get, select_state_blob_hash. rewrite Hb. cbn.
  unfold snapshot_row in Hrow. rewrite Hrow. cbn.
  unfold _read_blob. rewrite Hblob.
  rewrite (_write_blob_stored st _ _ Hcr Hwf Hd). cbn.
  by rewrite (Utf8Facts.decode_encode _ _ Hd).
Qed.

(** The second snapshot of the scenario, whose blob the first one wrote. *)
Lemma get_snapshot_roundtrip_witness :
  @get Demo.json Demo.store2 Demo.s2 = Ok Demo.step1.
Proof.
  apply (@get_snapshot_roundtrip Demo.models Demo.json Demo.store1
           Demo.stateA (Some Demo.s1) Demo.env2 Demo.store2 Demo.s2).
  - exact demo_collision_resistant.
  - exact demo_store1_wf.
  - vm_compute. reflexivity.
Defined.

(** C2. Deduplication: of two calls of [snapshot] that return, on states
    with the same serialized text and with any calls in between, both rows
    carry the same [state_blob_hash], the second call leaves the blob
    directory as it was (so the number of blob files is unchanged), and the
    two identifiers differ. *)
Theorem snapshot_deduplicates `{Models} st0 state1 parent1 env1 st1 id1
    st2 state2 parent2 env2 st3 id2 :
  snapshot st0 state1 parent1 env1 = (st1, Ok id1) →
  evolves st1 st2 →
  snapshot st2 state2 parent2 env2 = (st3, Ok id2) →
  to_json state1 = to_json state2 →
  (∃ r1 r2,
     snapshot_row st3 id1 = Some r1 ∧ snapshot_row st3 id2 = Some r2 ∧
     Snapshots.state_blob_hash r1 = Snapshots.state_blob_hash r2) ∧
  blob_dir st3 = blob_dir st2 ∧
  size (blob_dir st3) = size (blob_dir st2) ∧
  id1 ≠ id2.
Proof.
  intros Hs1 Hev Hs2 Hjson.
  pose proof (snapshot_row_new _ _ _ _ _ _ Hs1) as Hr1.
  pose proof (snapshot_row_new _ _ _ _ _ _ Hs2) as Hr2.
  assert (Hev3 : evolves st1 st3).
  { pose proof (evolves_snapshot _ _ state2 parent2 env2 Hev) as He.
    by rewrite Hs2 in He. }
  pose proof (snapshot_row_later _ _ _ _ Hev Hr1) as Hr12.
  apply snapshot_Ok in Hs1 as (data1 & Hd1 & -> & _ & Hb1 & _ & _).
  apply snapshot_Ok in Hs2 as (data2 & Hd2 & -> & _ & Hb2 & Hfresh & _).
  assert (Hsame : blob_dir st3 = blob_dir st2).
  { rewrite Hb2. f_equal. apply _write_blob_present.
    rewrite (_write_blob_encoded st2 _ _ Hd2), <- Hjson.
    pose proof (_write_blob_written st0 data1) as [d Hl].
    rewrite (_write_blob_encoded st0 _ _ Hd1), <- Hb1 in Hl.
    exists d. by apply (evolves_lookup st1). }
  split; [|split; [done | split; [by rewrite Hsame|]]].
  - exists (new_row state1 parent1 env1), (new_row state2 parent2 env2).
    split; [by apply (snapshot_row_later st1) | split; [done|]].
    cbn. by rewrite Hjson.
  - intros Heq. apply snapshot_row_id in Hr12 as [Hin Hid].
    apply (proj1 (Forall_forall _ _) Hfresh _ Hin). by rewrite Hid.
Qed.

(** The two snapshots of the scenario. *)
Lemma snapshot_deduplicates_witness :
  blob_dir Demo.store2 = blob_dir Demo.store1 ∧ Demo.s1 ≠ Demo.s2.
Proof.
  destruct (@snapshot_deduplicates Demo.models init Demo.stateA None
              Demo.env1 Demo.store1 Demo.s1 Demo.store1 Demo.stateA
              (Some Demo.s1) Demo.env2 Demo.store2 Demo.s2)
    as (_ & Hblobs & _ & Hids).
  - vm_compute. reflexivity.
  - constructor.
  - vm_compute. reflexivity.
  - reflexivity.
  - split; [exact Hblobs | exact Hids].
Defined.

(** C3, as the code has it.  The digest of a payload is taken over its
    lossy decoding.  For a payload that is the encoding of a text, which is
    every payload [snapshot] writes, that is the digest of the text: the
    store then holds exactly these bytes under it, and two such payloads
    that differ get digests that differ, the digest having no
    collisions. *)
Theorem _write_blob_digest_of_text `{Models} st1 st2 text1 text2 data1 data2 :
  collision_resistant →
  Utf8.encode text1 = Some data1 →
  Utf8.encode text2 = Some data2 →
  (_write_blob st1 data1).2 = sha256_text text1 ∧
  (store_wf st1 →
   blob_dir (_write_blob st1 data1).1 !! (_write_blob st1 data1).2
   = Some data1) ∧
  (data1 ≠ data2 → (_write_blob st1 data1).2 ≠ (_write_blob st2 data2).2).
Proof.
  intros Hcr Hd1 Hd2.
  rewrite (_write_blob_encoded st1 _ _ Hd1), (_write_blob_encoded st2 _ _ Hd2).
  split; [done|]. split; [intros Hwf; by apply _write_blob_stored|].
  intros Hne Heq. apply Hcr in Heq. apply Hne. congruence.
Qed.

(** The payloads of two texts. *)
Lemma _write_blob_digest_of_text_witness :
  (@_write_blob Demo.models init (Demo.payload Demo.step1)).2
  ≠ (@_write_blob Demo.models Demo.store1 (Demo.payload Demo.s1)).2.
Proof.
  apply (@_write_blob_digest_of_text Demo.models init Demo.store1
           Demo.step1 Demo.s1).
  - exact demo_collision_resistant.
  - vm_compute. reflexivity.
  - vm_compute. reflexivity.
  - vm_compute. discriminate.
Defined.

(** C3 as stated fails: the octet 0xFF decodes to nothing, so the payload
    that holds it alone gets the digest of the empty payload, with a digest
    that has no collisions; and once the empty payload is stored, writing
    the other stores nothing, so its digest names bytes that are not
    its own. *)
Lemma _write_blob_digest_collision :
  @collision_resistant Demo.models ∧
  [xff] ≠ ([] : bytes) ∧
  (@_write_blob Demo.models init [xff]).2
  = (@_write_blob Demo.models init []).2 ∧
  blob_dir
    (@_write_blob Demo.models (@_write_blob Demo.models init []).1 [xff]).1
  !! (@_write_blob Demo.models init [xff]).2 = Some [].
Proof.
  split; [exact demo_collision_resistant|].
  split; [discriminate|]. split; vm_compute; reflexivity.
Qed.

(** C4. Ledger fidelity: when [snapshot] returns for a state whose ledger
    has k entries, the index holds exactly k ledger rows under the returned
    identifier, and their columns are, entry by entry, the fields of the
    entries. *)
Theorem snapshot_ledger_fidelity `{Models} st state parent env st' id :
  store_wf st →
  snapshot st state parent env = (st', Ok id) →
  length (ledger_rows_of st' id) = length (tool_ledger state) ∧
  ToolLedger.entry <$> ledger_rows_of st' id = tool_ledger state ∧
  Forall (λ r, ToolLedger.snapshot_id r = id) (ledger_rows_of st' id).
Proof.
  intros Hwf Hs. rewrite (ledger_rows_of_new _ _ _ _ _ _ Hwf Hs).
  pose proof (ledger_rows_entry id (tool_ledger state)
                (Index.sequence (db st) + 1)) as He.
  split; [|split; [done | apply ledger_rows_tagged]].
  by rewrite <- He at 2; rewrite length_fmap.
Qed.

(** The two ledger rows of the second snapshot of the scenario. *)
Lemma snapshot_ledger_fidelity_witness :
  length (ledger_rows_of Demo.store2 Demo.s2) = 2%nat ∧
  ToolLedger.entry <$> ledger_rows_of Demo.store2 Demo.s2
  = [Demo.search; Demo.fetch] ∧
  Forall (λ r, ToolLedger.snapshot_id r = Demo.s2)
    (ledger_rows_of Demo.store2 Demo.s2).
Proof.
  apply (@snapshot_ledger_fidelity Demo.models Demo.store1 Demo.stateA
           (Some Demo.s1) Demo.env2 Demo.store2 Demo.s2).
  - exact demo_store1_wf.
  - vm_compute. reflexivity.
Defined.

(** C5, as the code has it.  For an identifier without a row in the index
    [get] never returns a value; it raises KeyError with the message
    "Snapshot <identifier> not found" when the identifier is text that
    encodes, and UnicodeEncodeError, from the binding of the parameter,
    when it holds a lone surrogate. *)
Theorem get_missing `{JsonLib} st snapshot_id :
  snapshot_row st snapshot_id = None →
  (∀ v, get st snapshot_id ≠ Ok v) ∧
  (text_ok snapshot_id →
   get st snapshot_id = Raise (KeyError (not_found snapshot_id))) ∧
  (Utf8.encode snapshot_id = None →
   get st snapshot_id = Raise UnicodeEncodeError).
Proof.
  intros Hrow. unfold get, select_state_blob_hash, bind_text, text_ok.
  unfold snapshot_row in Hrow.
  destruct (Utf8.encode snapshot_id) as [d|]; cbn.
  - rewrite Hrow. cbn. split; [done|]. split; [done|]. discriminate.
  - split; [done|]. split; [|done]. by intros [? ?].
Qed.

(** An identifier that encodes and names no snapshot. *)
Lemma get_missing_witness :
  @get Demo.json Demo.store2 Demo.nope
  = Raise (KeyError (str_of_string "Snapshot nonexistent-id not found")).
Proof.
  apply (@get_missing Demo.json Demo.store2 Demo.nope).
  - vm_compute. reflexivity.
  - vm_compute. eauto.
Defined.

(** C5 as stated fails: an identifier that holds a lone surrogate has no
    row, and [get] raises UnicodeEncodeError for it, not KeyError. *)
Lemma get_surrogate_identifier :
  snapshot_row Demo.store2 Demo.surrogate = None ∧
  @get Demo.json Demo.store2 Demo.surrogate = Raise UnicodeEncodeError ∧
  ∀ msg, @get Demo.json Demo.store2 Demo.surrogate ≠ Raise (KeyError msg).
Proof. split; [|split]; vm_compute; [reflexivity | reflexivity | discriminate]. Qed.


(** C6. [last_snapshot_id] raises nothing.  On a store without snapshots,
    a new one in particular, it returns [None]; otherwise it returns the
    identifier of a row whose [created_at] no row exceeds; and after a call
    of [snapshot] that returned, at a time later than every [created_at] in
    the index, it returns the identifier of that call, so after calls at
    times t1 < ... < tn the identifier of the last. *)
Theorem last_snapshot_id_latest `{Models} st :
  last_snapshot_id init = None ∧
  (Index.snapshots (db st) = [] → last_snapshot_id st = None) ∧
  (Index.snapshots (db st) ≠ [] →
   ∃ m, m ∈ Index.snapshots (db st) ∧
        last_snapshot_id st = Some (Snapshots.snapshot_id m) ∧
        ∀ r, r ∈ Index.snapshots (db st) →
             (Snapshots.created_at r ≤ Snapshots.created_at m)%Z) ∧
  (∀ state parent env st' id,
     snapshot st state parent env = (st', Ok id) →
     (∀ r, r ∈ Index.snapshots (db st) →
           (Snapshots.created_at r < time env)%Z) →
     last_snapshot_id st' = Some id).
Proof.
  split; [done|]. split; [|split].
  - unfold last_snapshot_id. by intros ->.
  - intros Hne. unfold last_snapshot_id.
    pose proof (head_order_by_created_at_desc (Index.snapshots (db st)))
      as Hh.
    destruct (head _) as [m|]; [|done].
    destruct Hh as [Hm Hmax]. by exists m.
  - intros state parent env st' id Hs Hlater.
    apply snapshot_Ok in Hs as (_ & _ & -> & _ & _ & _ & Hdb).
    unfold last_snapshot_id. rewrite Hdb. cbn.
    pose proof (head_order_by_created_at_desc
                  (Index.snapshots (db st) ++ [new_row state parent env]))
      as Hh.
    destruct (head _) as [m|]; [|by destruct (Index.snapshots (db st))].
    destruct Hh as [Hm Hmax]. cbn.
    apply elem_of_app in Hm as [Hm | Hm].
    + apply Hlater in Hm.
      specialize (Hmax (new_row state parent env)).
      cbn in Hmax. rewrite elem_of_app, list_elem_of_singleton in Hmax.
      specialize (Hmax (or_intror eq_refl)). lia.
    + by apply list_elem_of_singleton in Hm as ->.
Qed.

(** C7. Lineage: when [snapshot(S, parent_snapshot_id=P)] returns, the row
    of the returned identifier carries P as given; and P is not looked up:
    the call returns for any other parent as well, existing or not, that is
    absent or text that encodes. *)
Theorem snapshot_parent_verbatim `{Models} st state parent env st' id :
  snapshot st state parent env = (st', Ok id) →
  (∃ r, snapshot_row st' id = Some r ∧
        Snapshots.parent_snapshot_id r = parent) ∧
  (∀ parent', optional_text_ok parent' →
     ∃ st'', snapshot st state parent' env = (st'', Ok id) ∧
             ∃ r, snapshot_row st'' id = Some r ∧
                  Snapshots.parent_snapshot_id r = parent').
Proof.
  intros Hs. pose proof (snapshot_row_new _ _ _ _ _ _ Hs) as Hrow.
  split; [by exists (new_row state parent env)|].
  intros parent' Hp'.
  pose proof Hs as Hid.
  apply snapshot_Ok in Hid as (_ & _ & -> & _).
  assert (Hacc : snapshot_accepts st state parent env).
  { apply (snapshot_returns st state parent env). eauto. }
  destruct Hacc as (H1 & H2 & _ & H4).
  destruct (proj1 (snapshot_returns st state parent' env)) as [st'' Hs''].
  { by split; [|split; [|split]]. }
  exists st''. split; [done|].
  exists (new_row state parent' env).
  split; [by apply (snapshot_row_new st) | done].
Qed.

(** A parent that names no snapshot is stored as given. *)
Lemma snapshot_parent_verbatim_witness :
  snapshot_row Demo.store1 Demo.ghost = None ∧
  ∃ r, snapshot_row Demo.store2' Demo.s2 = Some r ∧
       Snapshots.parent_snapshot_id r = Some Demo.ghost.
Proof.
  split; [vm_compute; reflexivity|].
  apply (@snapshot_parent_verbatim Demo.models Demo.store1 Demo.stateA
           (Some Demo.ghost) Demo.env2 Demo.store2' Demo.s2).
  vm_compute. reflexivity.
Defined.

(** C8. Blob before row: the moments of a call of [snapshot], in the order
    of its statements, end in the store that the call leaves.  When every
    row of the index names a blob of the store before the call, every row
    does at every moment of the call.  A moment at which the index holds a
    row that it did not hold before the call comes after a moment at which
    the index was still the old one and the blob of that row was in the
    store.  In a call that returns, the moments are the store as
    [_write_blob] leaves it, with the blob under the digest and the old
    index, unchanged through the inserts, and then at the commit the store
    with the row whose [state_blob_hash] is that digest, and no blob
    changed. *)
Theorem snapshot_blob_before_row `{Models} st state parent env :
  (∀ r, r ∈ Index.snapshots (db st) →
        is_Some (blob_dir st !! Snapshots.state_blob_hash r)) →
  let ms := snapshot_moments st state parent env in
  last (st :: ms) = Some (snapshot st state parent env).1 ∧
  (∀ st_i r,
     st_i ∈ ms → r ∈ Index.snapshots (db st_i) →
     is_Some (blob_dir st_i !! Snapshots.state_blob_hash r)) ∧
  (∀ (i : nat) st_i r,
     ms !! i = Some st_i →
     r ∈ Index.snapshots (db st_i) → r ∉ Index.snapshots (db st) →
     ∃ (j : nat) st_j,
       (j < i)%nat ∧ ms !! j = Some st_j ∧ db st_j = db st ∧
       is_Some (blob_dir st_j !! Snapshots.state_blob_hash r)) ∧
  (∀ st' id,
     snapshot st state parent env = (st', Ok id) →
     ∃ data st1 h,
       Utf8.encode (to_json state) = Some data ∧
       _write_blob st data = (st1, h) ∧
       ms = replicate (length (tool_ledger state) + 2) st1 ++ [st'] ∧
       db st1 = db st ∧
       is_Some (blob_dir st1 !! h) ∧
       blob_dir st' = blob_dir st1 ∧
       ∃ r, Index.snapshots (db st') = Index.snapshots (db st1) ++ [r] ∧
            Snapshots.snapshot_id r = id ∧ Snapshots.state_blob_hash r = h).
Proof.
  intros Hinv ms. split; [apply snapshot_moments_last|]. subst ms.
  destruct (snapshot st state parent env) as [st' [id|e]] eqn:Hs.
  - pose proof (snapshot_moments_Ok _ _ _ _ _ _ Hs) as (data & Hd & ->).
    apply snapshot_Ok in Hs as (data' & Hd' & -> & _ & Hb & _ & Hdb).
    assert (data' = data) as -> by congruence. clear Hd'.
    pose proof (_write_blob_written st data) as Hw.
    pose proof (_write_blob_db st data) as Hdb1.
    pose proof (_write_blob_encoded st _ _ Hd) as Hh.
    pose proof (_write_blob_lookup st data) as Hkeep.
    revert Hb Hw Hdb1 Hh Hkeep.
    destruct (_write_blob st data) as [st1 h] eqn:Hwrite. cbn.
    intros Hb Hw Hdb1 -> Hkeep.
    assert (Hmid : ∀ r, r ∈ Index.snapshots (db st1) →
              is_Some (blob_dir st1 !! Snapshots.state_blob_hash r)).
    { rewrite Hdb1. intros r Hr. destruct (Hinv r Hr) as [d Hl].
      exists d. by apply Hkeep. }
    assert (Hnew : ∀ r, r ∈ Index.snapshots (db st') →
              r ∈ Index.snapshots (db st) ∨
              Snapshots.state_blob_hash r = sha256_text (to_json state)).
    { rewrite Hdb. cbn. intros r Hr.
      apply elem_of_app in Hr as [Hr | Hr]; [by left | right].
      by apply list_elem_of_singleton in Hr as ->. }
    split; [|split].
    + intros st_i r Hi Hr. apply elem_of_app in Hi as [Hi | Hi].
      * apply elem_of_replicate in Hi as [-> _]. by apply Hmid.
      * apply list_elem_of_singleton in Hi as ->. rewrite Hb.
        destruct (Hnew r Hr) as [Hold | ->]; [|done].
        apply Hmid. by rewrite Hdb1.
    + intros i st_i r Hi Hr Hold.
      apply lookup_app_Some in Hi as [Hi | [Hlen Hi]].
      * apply lookup_replicate in Hi as [-> _]. by rewrite Hdb1 in Hr.
      * apply list_lookup_singleton_Some in Hi as [Hi ->].
        rewrite length_replicate in Hlen, Hi.
        exists 0%nat, st1. split; [lia|]. split.
        { replace (length (tool_ledger state) + 2)%nat
            with (S (S (length (tool_ledger state)))) by lia. done. }
        split; [done|]. by destruct (Hnew r Hr) as [? | ->].
    + intros ? ? [= <- <-]. exists data, st1, (sha256_text (to_json state)).
      do 6 (split; [done|]). rewrite Hdb1, Hdb. cbn.
      by exists (new_row state parent env).
  - pose proof (snapshot_moments_Raise _ _ _ _ _ _ Hs) as (k & -> & _ & _).
    apply snapshot_Raise in Hs as [Hdb Hst]. split; [|split].
    + intros st_i r Hi Hr. apply elem_of_replicate in Hi as [-> _].
      rewrite Hdb in Hr. destruct (Hinv r Hr) as [d Hl]. exists d.
      destruct Hst as [-> | (data & _ & ->)]; [done|].
      by apply _write_blob_lookup.
    + intros i st_i r Hi Hr Hold.
      apply lookup_replicate in Hi as [-> _]. by rewrite Hdb in Hr.
    + intros ? ? [= _ ?].
Qed.

(** A call on the store of the first snapshot, for a state whose text is
    new. *)
Lemma snapshot_blob_before_row_witness :
  ∃ st1 h,
    @snapshot_moments Demo.models Demo.store1 Demo.stateC None Demo.env2
    = [st1; st1;
       (@snapshot Demo.models Demo.store1 Demo.stateC None Demo.env2).1] ∧
    db st1 = db Demo.store1 ∧
    is_Some (blob_dir st1 !! h) ∧
    Snapshots.state_blob_hash
      <$> Index.snapshots
            (db (@snapshot Demo.models Demo.store1 Demo.stateC None
                   Demo.env2).1)
    = (Snapshots.state_blob_hash <$> Index.snapshots (db st1)) ++ [h].
Proof.
  destruct (@snapshot_blob_before_row Demo.models Demo.store1 Demo.stateC
              None Demo.env2 (wf_blob_exists _ demo_store1_wf))
    as (_ & _ & _ & Hret).
  destruct (Hret (@snapshot Demo.models Demo.store1 Demo.stateC None
                    Demo.env2).1 Demo.s2)
    as (data & st1 & h & _ & _ & Hms & Hdb & Hblob & _ & r & Hrow & _ & Hh).
  - vm_compute. reflexivity.
  - exists st1, h. split; [exact Hms|]. split; [exact Hdb|].
    split; [exact Hblob|]. rewrite Hrow, fmap_app. cbn. by rewrite Hh.
Defined.

(** C9. One unit of work: at every moment of a call of [snapshot] the
    index is either the old one, or the old one with the snapshot row and
    all the ledger rows of the state.  The call returns exactly when the
    text encodes and SQLite takes every insert; then the index is the old
    one until the commit, and with the commit it has gained the snapshot
    row and all the ledger rows.  When the call raises, whichever
    statement raised, the index is the old one at every moment and in the
    store that the call leaves. *)
Theorem snapshot_all_or_nothing `{Models} st state parent env :
  let ms := snapshot_moments st state parent env in
  let st' := (snapshot st state parent env).1 in
  last (st :: ms) = Some st' ∧
  (∀ st_i, st_i ∈ ms →
     db st_i = db st ∨ db st_i = committed_index st state parent env) ∧
  (snapshot_accepts st state parent env ↔
   ∃ id, (snapshot st state parent env).2 = Ok id) ∧
  (∀ id, (snapshot st state parent env).2 = Ok id →
     id = uuid4 env ∧
     (∃ ms0, ms = ms0 ++ [st'] ∧ Forall (λ st_i, db st_i = db st) ms0) ∧
     db st' = committed_index st state parent env ∧
     Index.snapshots (db st') =
       Index.snapshots (db st) ++ [new_row state parent env] ∧
     Index.tool_ledger (db st') =
       Index.tool_ledger (db st) ++
       ledger_rows (Index.sequence (db st) + 1) id (tool_ledger state) ∧
     length (Index.tool_ledger (db st')) =
       (length (Index.tool_ledger (db st))
        + length (tool_ledger state))%nat) ∧
  (∀ e, (snapshot st state parent env).2 = Raise e →
     db st' = db st ∧ Forall (λ st_i, db st_i = db st) ms).
Proof.
  intros ms st'. split; [apply snapshot_moments_last|].
  pose proof (snapshot_returns st state parent env) as Hret.
  subst ms st'.
  destruct (snapshot st state parent env) as [st' [id|e]] eqn:Hs;
    cbn [fst snd].
  - pose proof (snapshot_moments_Ok _ _ _ _ _ _ Hs) as (data & Hd & ->).
    apply snapshot_Ok in Hs as (_ & _ & -> & _ & _ & _ & Hdb).
    pose proof (_write_blob_db st data) as Hdb1.
    split; [|split; [|split]].
    + intros st_i Hi. apply elem_of_app in Hi as [Hi | Hi].
      * apply elem_of_replicate in Hi as [-> _]. by left.
      * apply list_elem_of_singleton in Hi as ->. by right.
    + split; [eauto|]. intros _. apply Hret. eauto.
    + intros ? [= <-]. split; [done|]. split.
      { eexists. split; [done|]. by apply Forall_replicate. }
      split; [done|]. rewrite Hdb. cbn. do 2 (split; [done|]).
      rewrite length_app. f_equal.
      rewrite <- (ledger_rows_entry (uuid4 env) (tool_ledger state)
                    (Index.sequence (db st) + 1)) at 2.
      by rewrite length_fmap.
    + by intros ? [=].
  - pose proof (snapshot_moments_Raise _ _ _ _ _ _ Hs) as (k & -> & _ & _).
    apply snapshot_Raise in Hs as [Hdb _].
    split; [|split; [|split]].
    + intros st_i Hi. apply elem_of_replicate in Hi as [-> _]. by left.
    + split; [|by intros [? [=]]].
      intros Hacc. apply Hret in Hacc as [? [=]].
    + by intros ? [=].
    + intros ? _. split; [done|]. by apply Forall_replicate.
Qed.

(** The first snapshot of the scenario: the row and both ledger rows. *)
Lemma snapshot_all_or_nothing_witness :
  Index.snapshots (db Demo.store1)
  = [@new_row Demo.models Demo.stateA None Demo.env1] ∧
  Index.tool_ledger (db Demo.store1)
  = ledger_rows 1 Demo.s1 [Demo.search; Demo.fetch].
Proof.
  destruct (@snapshot_all_or_nothing Demo.models init Demo.stateA None
              Demo.env1)
    as (_ & _ & _ & Hok & _).
  destruct (Hok Demo.s1) as (_ & _ & _ & Hrows & Hledger & _).
  - vm_compute. reflexivity.
  - split; [exact Hrows | exact Hledger].
Defined.

(** C10. Ledger order: when [snapshot] returns, the ledger rows under the
    returned identifier, in the order of their ids, are the entries of
    [state.tool_ledger] in their order: read in rowid order they give the
    ledger back, their ids increase strictly along it, and they lie above
    every id the table held before. *)
Theorem snapshot_ledger_order `{Models} st state parent env st' id :
  store_wf st →
  snapshot st state parent env = (st', Ok id) →
  ToolLedger.entry <$> ledger_rows_of st' id = tool_ledger state ∧
  StronglySorted Z.lt (ToolLedger.id <$> ledger_rows_of st' id) ∧
  (∀ old new,
     old ∈ Index.tool_ledger (db st) → new ∈ ledger_rows_of st' id →
     (ToolLedger.id old < ToolLedger.id new)%Z).
Proof.
  intros Hwf Hs. rewrite (ledger_rows_of_new _ _ _ _ _ _ Hwf Hs).
  split; [apply ledger_rows_entry|]. split; [apply ledger_rows_increasing|].
  intros old new Hold Hnew. apply (wf_sequence _ Hwf) in Hold.
  apply ledger_rows_ids in Hnew. lia.
Qed.

(** The second snapshot of the scenario takes the ids after the first's. *)
Lemma snapshot_ledger_order_witness :
  ToolLedger.id <$> ledger_rows_of Demo.store2 Demo.s2 = [3; 4]%Z ∧
  StronglySorted Z.lt (ToolLedger.id <$> ledger_rows_of Demo.store2 Demo.s2).
Proof.
  split; [vm_compute; reflexivity|].
  apply (@snapshot_ledger_order Demo.models Demo.store1 Demo.stateA
           (Some Demo.s1) Demo.env2 Demo.store2 Demo.s2).
  - exact demo_store1_wf.
  - vm_compute. reflexivity.
Defined.

(** * Further properties of the store *)

(** ** Helpers *)

Lemma ledger_rows_length snap_id ledger : ∀ next,
  length (ledger_rows next snap_id ledger) = length ledger.
Proof. induction ledger; intros next; cbn; [done | by f_equal]. Qed.

Lemma ledger_rows_lookup snap_id ledger : ∀ next (j : nat) r,
  ledger_rows next snap_id ledger !! j = Some r →
  ToolLedger.id r = (next + Z.of_nat j)%Z.
Proof.
  induction ledger as [|tc ledger IH]; intros next j r Hr; [done|].
  destruct j as [|j]; cbn in Hr.
  - injection Hr as <-. cbn. lia.
  - apply IH in Hr. lia.
Qed.

Lemma NoDup_fmap_elem {A B} (f : A → B) (l : list A) x y :
  NoDup (f <$> l) → x ∈ l → y ∈ l → f x = f y → x = y.
Proof.
  induction l as [|z l IH]; cbn; intros Hnd Hx Hy Hf.
  - by apply elem_of_nil in Hx.
  - apply NoDup_cons in Hnd as [Hz Hnd].
    apply elem_of_cons in Hx as [-> | Hx], Hy as [-> | Hy]; [done | | |auto].
    + destruct Hz. rewrite Hf. by apply list_elem_of_fmap_2.
    + destruct Hz. rewrite <- Hf. by apply list_elem_of_fmap_2.
Qed.

Lemma find_elem {A} (P : A → bool) (l : list A) x :
  x ∈ l → P x = true → is_Some (find P l).
Proof.
  intros Hx HP. destruct (find P l) eqn:E; [eauto|].
  apply list_elem_of_In in Hx.
  pose proof (find_none P l E x Hx). congruence.
Qed.

Section MoreFacts.
Context `{Models}.

Lemma snapshot_Raise_encoded st state parent env st' e data :
  Utf8.encode (to_json state) = Some data →
  snapshot st state parent env = (st', Raise e) →
  st' = (_write_blob st data).1.
Proof.
  intros Hd Hs. unfold snapshot in Hs. rewrite Hd in Hs.
  pose proof (_write_blob_db st data) as Hdb.
  destruct (_write_blob st data) as [st1 h] eqn:Hw. cbn in Hdb.
  match type of Hs with
  | context [snapshot_transaction ?a ?b ?c ?d ?e ?f (connect ?ix)] =>
      pose proof (snapshot_transaction_spec ix a b c d e f) as Ht;
      revert Ht;
      destruct (snapshot_transaction a b c d e f (connect ix)) as [conn r];
      intros Ht
  end.
  injection Hs as <- ->. cbn in Ht. cbn. rewrite Ht. by destruct st1.
Qed.

Lemma snapshot_ledger_rows st state parent env :
  Index.tool_ledger (db st) `prefix_of`
    Index.tool_ledger (db (snapshot st state parent env).1) ∧
  (Index.sequence (db st)
   ≤ Index.sequence (db (snapshot st state parent env).1))%Z.
Proof.
  destruct (snapshot st state parent env) as [st' [id|e]] eqn:Hs; cbn.
  - apply snapshot_Ok in Hs as (_ & _ & _ & _ & _ & _ & ->). cbn.
    split; [by apply prefix_app_r | lia].
  - apply snapshot_Raise in Hs as [-> _]. done.
Qed.

Lemma init_inv : index_inv init.
Proof.
  split; cbn; try done.
  all: intros r Hr; by apply elem_of_nil in Hr.
Qed.

Lemma snapshot_inv st state parent env :
  index_inv st → index_inv (snapshot st state parent env).1.
Proof.
  intros [Hid Hh Hn Hq].
  destruct (snapshot st state parent env) as [st' [id|e]] eqn:Hs; cbn.
  - apply snapshot_Ok in Hs as (data & Hd & -> & Hbind & _ & _ & Hdb).
    split; rewrite Hdb; cbn.
    + intros r Hr. apply elem_of_app in Hr as [Hr | Hr]; [by apply Hid|].
      apply list_elem_of_singleton in Hr as ->. cbn.
      by apply bind_text_returns.
    + intros r Hr. apply elem_of_app in Hr as [Hr | Hr]; [by apply Hh|].
      by apply list_elem_of_singleton in Hr as ->.
    + intros i l Hl. apply lookup_app_Some in Hl as [Hl | [Hi Hl]].
      * by apply Hn.
      * apply ledger_rows_lookup in Hl. lia.
    + rewrite length_app, ledger_rows_length. lia.
  - apply snapshot_Raise in Hs as [Hdb _].
    split; rewrite Hdb; done.
Qed.

Lemma evolves_inv st st' : evolves st st' → index_inv st → index_inv st'.
Proof. induction 1; intros Hi; [done | by apply snapshot_inv, IHevolves]. Qed.

Lemma reachable_inv st : reachable st → index_inv st.
Proof. intros Hr. apply (evolves_inv _ _ Hr), init_inv. Qed.

Lemma evolves_ledger st st' :
  evolves st st' →
  Index.tool_ledger (db st) `prefix_of` Index.tool_ledger (db st') ∧
  (Index.sequence (db st) ≤ Index.sequence (db st'))%Z.
Proof.
  induction 1 as [|st' state parent env _ [IHl IHq]]; [done|].
  destruct (snapshot_ledger_rows st' state parent env) as [Hl Hq].
  split; [by etrans | lia].
Qed.

(** What [get] returns for a row whose blob is text. *)
Lemma get_row `{JsonLib} st snapshot_id r data text :
  text_ok snapshot_id →
  snapshot_row st snapshot_id = Some r →
  blob_dir st !! Snapshots.state_blob_hash r = Some data →
  Utf8.decode data = Some text →
  get st snapshot_id = json_loads text.
Proof.
  intros Hid Hrow Hblob Htext. apply bind_text_returns in Hid.
  unfold get, select_state_blob_hash. rewrite Hid. cbn.
  unfold snapshot_row in Hrow. rewrite Hrow. cbn.
  unfold _read_blob. rewrite Hblob. cbn. by rewrite Htext.
Qed.

(** In a store that calls of [snapshot] built, [get] on the identifier of
    a row is [json.loads] on the text whose digest the row carries. *)
Lemma get_row_wf `{JsonLib} st snapshot_id r :
  store_wf st → index_inv st →
  snapshot_row st snapshot_id = Some r →
  ∃ text, sha256_text text = Snapshots.state_hash r ∧
          get st snapshot_id = json_loads text.
Proof.
  intros Hwf Hinv Hrow. pose proof Hrow as Hr.
  apply snapshot_row_id in Hr as [Hin Hid].
  destruct (wf_blob_exists _ Hwf r Hin) as [data Hblob].
  destruct (wf_blob_content _ Hwf _ _ Hblob) as (text & Hd & Hh).
  exists text. split; [by rewrite (inv_hashes _ Hinv r Hin)|].
  apply (get_row st snapshot_id r data text); try done.
  - rewrite <- Hid. by apply (inv_identifier _ Hinv).
  - by apply Utf8Facts.decode_encode.
Qed.

End MoreFacts.

Lemma demo_reachable2 : @reachable Demo.models Demo.store2.
Proof. do 2 apply evolves_snapshot. apply evolves_refl. Qed.

(** ** The constructor *)

(** X1. Opening a store again loses nothing: the constructor on the root of
    a store gives that store back, on any root it keeps the blob directory
    and each table that exists, running it twice is running it once, and
    on a path where nothing exists it gives the empty store. *)
Theorem __init___keeps_store (st : Store) (root : Root.t) :
  __init__ (root_of st) = st ∧
  __init__ (root_of (__init__ root)) = __init__ root ∧
  __init__ Root.absent = init ∧
  (∀ files, Root.blobs root = Some files → blob_dir (__init__ root) = files) ∧
  (∀ database rows,
     Root.index_sqlite root = Some database →
     Root.snapshots database = Some rows →
     Index.snapshots (db (__init__ root)) = rows) ∧
  (∀ database rows sequence,
     Root.index_sqlite root = Some database →
     Root.tool_ledger database = Some (rows, sequence) →
     Index.tool_ledger (db (__init__ root)) = rows ∧
     Index.sequence (db (__init__ root)) = sequence).
Proof.
  split; [by destruct st as [? []]|].
  split; [by destruct root as [[] [[[] []]|]]|].
  split; [done|]. unfold __init__, _init_db. cbn.
  split; [by intros files ->|].
  split; [by intros database rows -> ->|].
  by intros database rows sequence -> ->.
Qed.

(** ** The blob directory *)

(** X2. Write then read: after [_write_blob], [_read_blob] on the digest
    returns, and gives the bytes first stored under that digest: the
    payload when the digest was new, and what was there when it was not. *)
Theorem _read_blob_after_write `{Models} st data :
  _read_blob (_write_blob st data).1 (_write_blob st data).2 =
  Ok (match blob_dir st !! (_write_blob st data).2 with
      | Some stored => stored
      | None => data
      end).
Proof.
  unfold _read_blob, _write_blob. cbn.
  destruct (blob_dir st !! sha256_text _) eqn:E; cbn; [by rewrite E|].
  by rewrite lookup_insert_eq.
Qed.

(** X3. [_write_blob] changes no blob that exists and no row, adds at most
    one file, and writing the same payload once more changes nothing. *)
Theorem _write_blob_once `{Models} st data :
  blob_dir st ⊆ blob_dir (_write_blob st data).1 ∧
  db (_write_blob st data).1 = db st ∧
  (size (blob_dir (_write_blob st data).1) ≤ S (size (blob_dir st)))%nat ∧
  _write_blob (_write_blob st data).1 data = _write_blob st data.
Proof.
  split; [|split; [apply _write_blob_db | split]].
  - apply map_subseteq_spec. intros h d. apply _write_blob_lookup.
  - unfold _write_blob. cbn.
    destruct (blob_dir st !! sha256_text _) eqn:E; cbn; [lia|].
    rewrite map_size_insert_None by done. lia.
  - pose proof (_write_blob_present (_write_blob st data).1 data) as Hp.
    assert (Hh : (_write_blob (_write_blob st data).1 data).2
                 = (_write_blob st data).2) by done.
    rewrite Hh in Hp. specialize (Hp (_write_blob_written st data)).
    destruct (_write_blob (_write_blob st data).1 data) as [st2 h2].
    cbn in *. by subst.
Qed.

(** ** The history *)

(** X4. Append only: whatever calls of [snapshot] follow, returning or
    raising, the snapshot rows and the ledger rows that the index holds
    stay as they are, at the head of their tables, every blob stays with
    its bytes, and the AUTOINCREMENT counter does not go down. *)
Theorem evolves_append_only `{Models} st st' :
  evolves st st' →
  Index.snapshots (db st) `prefix_of` Index.snapshots (db st') ∧
  Index.tool_ledger (db st) `prefix_of` Index.tool_ledger (db st') ∧
  blob_dir st ⊆ blob_dir st' ∧
  (Index.sequence (db st) ≤ Index.sequence (db st'))%Z.
Proof.
  intros Hev. destruct (evolves_ledger _ _ Hev) as [Hl Hq].
  split; [by apply evolves_rows|]. split; [done|]. split; [|done].
  apply map_subseteq_spec. intros h d. by apply evolves_lookup.
Qed.

Lemma evolves_append_only_witness :
  Index.snapshots (db Demo.store1) `prefix_of`
    Index.snapshots (db Demo.store2) ∧
  blob_dir Demo.store1 ⊆ blob_dir Demo.store2.
Proof.
  destruct (@evolves_append_only Demo.models Demo.store1 Demo.store2)
    as (Hrows & _ & Hblobs & _).
  - apply evolves_snapshot, evolves_refl.
  - split; [exact Hrows | exact Hblobs].
Defined.

(** X5. A snapshot stays readable: [get] on the identifier that a call of
    [snapshot] returned gives [json.loads] of the state's text after any
    later calls of [snapshot] as well. *)
Theorem get_after_later_calls `{Models} `{JsonLib}
    st state parent env st1 id st2 :
  collision_resistant → store_wf st →
  snapshot st state parent env = (st1, Ok id) →
  evolves st1 st2 →
  get st2 id = json_loads (to_json state).
Proof.
  intros Hcr Hwf Hs Hev.
  pose proof (snapshot_row_new _ _ _ _ _ _ Hs) as Hrow.
  apply (snapshot_row_later _ _ _ _ Hev) in Hrow.
  apply snapshot_Ok in Hs as (data & Hd & -> & Hbind & Hb & _ & _).
  apply (get_row st2 (uuid4 env) (new_row state parent env) data
           (to_json state)); try done.
  - by apply bind_text_returns.
  - apply (evolves_lookup st1); [done|]. rewrite Hb. cbn.
    by apply _write_blob_stored.
  - by apply Utf8Facts.decode_encode.
Qed.

Lemma get_after_later_calls_witness :
  @get Demo.json Demo.store2 Demo.s1 = Ok Demo.step1.
Proof.
  apply (@get_after_later_calls Demo.models Demo.json init Demo.stateA None
           Demo.env1 Demo.store1 Demo.s1 Demo.store2).
  - exact demo_collision_resistant.
  - exact init_wf.
  - vm_compute. reflexivity.
  - apply evolves_snapshot, evolves_refl.
Defined.

(** X6. A call of [snapshot] that raises is not seen by readers: it leaves
    the answer of [last_snapshot_id] and the answer of [get] for every
    identifier as they were. *)
Theorem snapshot_raise_unseen `{Models} `{JsonLib} st state parent env st' e :
  store_wf st →
  snapshot st state parent env = (st', Raise e) →
  last_snapshot_id st' = last_snapshot_id st ∧
  ∀ snapshot_id, get st' snapshot_id = get st snapshot_id.
Proof.
  intros Hwf Hs.
  assert (Hkeep : ∀ h d, blob_dir st !! h = Some d →
                         blob_dir st' !! h = Some d).
  { intros h d Hl.
    pose proof (snapshot_lookup st state parent env h d Hl) as Hl'.
    by rewrite Hs in Hl'. }
  apply snapshot_Raise in Hs as [Hdb _].
  split; [unfold last_snapshot_id; by rewrite Hdb|].
  intros snapshot_id. unfold get, select_state_blob_hash. rewrite Hdb.
  destruct (bind_text snapshot_id) as [sid|]; cbn; [|done].
  destruct (find _ _) as [r|] eqn:Hrow; cbn; [|done].
  apply find_some in Hrow as [Hin _]. apply list_elem_of_In in Hin.
  destruct (wf_blob_exists _ Hwf r Hin) as [d Hl].
  unfold _read_blob. by rewrite Hl, (Hkeep _ _ Hl).
Qed.

Lemma snapshot_raise_unseen_witness :
  last_snapshot_id
    (@snapshot Demo.models Demo.store1 Demo.stateD None Demo.env2).1
  = last_snapshot_id Demo.store1 ∧
  @get Demo.json
    (@snapshot Demo.models Demo.store1 Demo.stateD None Demo.env2).1 Demo.s1
  = @get Demo.json Demo.store1 Demo.s1.
Proof.
  destruct (@snapshot_raise_unseen Demo.models Demo.json Demo.store1
              Demo.stateD None Demo.env2
              (@snapshot Demo.models Demo.store1 Demo.stateD None Demo.env2).1
              OverflowError)
    as [Hlast Hget].
  - exact demo_store1_wf.
  - vm_compute. reflexivity.
  - exact (conj Hlast (Hget Demo.s1)).
Defined.

(** ** What the index keeps *)

(** X7. In a store that calls of [snapshot] built, the [state_hash] of
    every row is its [state_blob_hash], and the blob under it is the
    encoding of a text with that digest. *)
Theorem reachable_state_hash `{Models} st r :
  reachable st →
  r ∈ Index.snapshots (db st) →
  Snapshots.state_hash r = Snapshots.state_blob_hash r ∧
  ∃ text data,
    blob_dir st !! Snapshots.state_hash r = Some data ∧
    Utf8.encode text = Some data ∧
    sha256_text text = Snapshots.state_hash r.
Proof.
  intros Hre Hr.
  pose proof (reachable_wf _ Hre) as Hwf.
  pose proof (reachable_inv _ Hre) as Hinv.
  pose proof (inv_hashes _ Hinv r Hr) as Hh. split; [done|].
  destruct (wf_blob_exists _ Hwf r Hr) as [data Hblob].
  destruct (wf_blob_content _ Hwf _ _ Hblob) as (text & Hd & Ht).
  exists text, data. by rewrite Hh.
Qed.

Lemma reachable_state_hash_witness :
  ∃ text data,
    blob_dir Demo.store2 !! (@sha256_text Demo.models Demo.step1) = Some data ∧
    Utf8.encode text = Some data ∧
    @sha256_text Demo.models text = @sha256_text Demo.models Demo.step1.
Proof.
  apply (@reachable_state_hash Demo.models Demo.store2
           (@new_row Demo.models Demo.stateA None Demo.env1)).
  - exact demo_reachable2.
  - apply list_elem_of_In. vm_compute. auto.
Defined.

(** X8. In a store that calls of [snapshot] built, no two snapshot rows
    share their identifier, and every ledger row belongs to exactly one
    snapshot row. *)
Theorem reachable_identifiers `{Models} st :
  reachable st →
  NoDup (Snapshots.snapshot_id <$> Index.snapshots (db st)) ∧
  ∀ l, l ∈ Index.tool_ledger (db st) →
    ∃ r, r ∈ Index.snapshots (db st) ∧
         Snapshots.snapshot_id r = ToolLedger.snapshot_id l ∧
         ∀ r', r' ∈ Index.snapshots (db st) →
               Snapshots.snapshot_id r' = ToolLedger.snapshot_id l → r' = r.
Proof.
  intros Hre. pose proof (reachable_wf _ Hre) as Hwf.
  pose proof (wf_primary_key _ Hwf) as Hnd. split; [done|].
  intros l Hl. apply (wf_ledger_owner _ Hwf) in Hl.
  apply list_elem_of_fmap in Hl as (r & Hid & Hr).
  exists r. split; [done|]. split; [done|]. intros r' Hr' Hid'.
  apply (NoDup_fmap_elem Snapshots.snapshot_id _ r' r Hnd Hr' Hr). congruence.
Qed.

Lemma reachable_identifiers_witness :
  NoDup (Snapshots.snapshot_id <$> Index.snapshots (db Demo.store2)).
Proof.
  apply (@reachable_identifiers Demo.models Demo.store2).
  exact demo_reachable2.
Defined.

(** X9. In a store that calls of [snapshot] built, the ledger rows are
    numbered 1, 2, 3, ... in the order of their insertion, without a gap
    even where a call raised between two that returned, and the
    AUTOINCREMENT counter is their number. *)
Theorem reachable_ledger_ids `{Models} st :
  reachable st →
  (∀ (i : nat) l, Index.tool_ledger (db st) !! i = Some l →
                  ToolLedger.id l = (Z.of_nat i + 1)%Z) ∧
  Index.sequence (db st) = Z.of_nat (length (Index.tool_ledger (db st))).
Proof.
  intros Hre. pose proof (reachable_inv _ Hre) as Hinv.
  split; [apply (inv_ledger_ids _ Hinv) | apply (inv_sequence _ Hinv)].
Qed.

Lemma reachable_ledger_ids_witness :
  Index.sequence (db Demo.store2)
  = Z.of_nat (length (Index.tool_ledger (db Demo.store2))).
Proof.
  apply (@reachable_ledger_ids Demo.models Demo.store2).
  exact demo_reachable2.
Defined.

(** ** Reading *)

(** X10. In a store that calls of [snapshot] built, [get] on the
    identifier of any row raises neither KeyError nor FileNotFoundError
    nor a codec error: it is [json.loads] on a text whose digest is the
    [state_hash] of the row. *)
Theorem get_reachable_row `{Models} `{JsonLib} st snapshot_id r :
  reachable st →
  snapshot_row st snapshot_id = Some r →
  ∃ text, sha256_text text = Snapshots.state_hash r ∧
          get st snapshot_id = json_loads text.
Proof.
  intros Hre. apply get_row_wf; [by apply reachable_wf | by apply reachable_inv].
Qed.

Lemma get_reachable_row_witness :
  ∃ text,
    @sha256_text Demo.models text = @sha256_text Demo.models Demo.step1 ∧
    @get Demo.json Demo.store2 Demo.s1 = Ok text.
Proof.
  apply (@get_reachable_row Demo.models Demo.json Demo.store2 Demo.s1
           (@new_row Demo.models Demo.stateA None Demo.env1)).
  - exact demo_reachable2.
  - vm_compute. reflexivity.
Defined.

(** X11. What [last_snapshot_id] returns can be read: in a store that calls
    of [snapshot] built, the identifier it returns has a row, no row is
    later than that one, and [get] on the identifier is [json.loads] on
    the text of that row. *)
Theorem get_last_snapshot_id `{Models} `{JsonLib} st snapshot_id :
  reachable st →
  last_snapshot_id st = Some snapshot_id →
  ∃ r text,
    snapshot_row st snapshot_id = Some r ∧
    (∀ r', r' ∈ Index.snapshots (db st) →
           (Snapshots.created_at r' ≤ Snapshots.created_at r)%Z) ∧
    sha256_text text = Snapshots.state_hash r ∧
    get st snapshot_id = json_loads text.
Proof.
  intros Hre Hlast. pose proof (reachable_wf _ Hre) as Hwf.
  unfold last_snapshot_id in Hlast.
  pose proof (head_order_by_created_at_desc (Index.snapshots (db st))) as Hh.
  destruct (head _) as [m|]; [|done].
  destruct Hh as [Hm Hmax]. injection Hlast as <-.
  destruct (find_elem
              (λ r, bool_decide (Snapshots.snapshot_id r
                                 = Snapshots.snapshot_id m))
              (Index.snapshots (db st)) m Hm) as [r Hrow];
    [by apply bool_decide_eq_true|].
  pose proof (snapshot_row_id st _ r Hrow) as [Hr Hid].
  assert (r = m) as ->.
  { by apply (NoDup_fmap_elem Snapshots.snapshot_id _ r m
                (wf_primary_key _ Hwf)). }
  destruct (get_row_wf st _ m Hwf (reachable_inv _ Hre) Hrow)
    as (text & Ht & Hg).
  by exists m, text.
Qed.

Lemma get_last_snapshot_id_witness :
  ∃ r text,
    snapshot_row Demo.store2 Demo.s2 = Some r ∧
    (∀ r', r' ∈ Index.snapshots (db Demo.store2) →
           (Snapshots.created_at r' ≤ Snapshots.created_at r)%Z) ∧
    @sha256_text Demo.models text = Snapshots.state_hash r ∧
    @get Demo.json Demo.store2 Demo.s2 = Ok text.
Proof.
  apply (@get_last_snapshot_id Demo.models Demo.json Demo.store2 Demo.s2).
  - exact demo_reachable2.
  - vm_compute. reflexivity.
Defined.

(** ** Calls that raise *)

Lemma insert_snapshot_Raise ix r e :
  insert_snapshot ix r = Raise e →
  e = UnicodeEncodeError ∨ e = IntegrityError.
Proof.
  unfold insert_snapshot, bind_optional_text, bind_text, mbind, result_bind,
    mret, result_ret.
  intros Hi. repeat (case_match; simplify_eq; auto).
Qed.

Lemma insert_tool_call_Raise ix snap_id tc e :
  insert_tool_call ix snap_id tc = Raise e →
  e = UnicodeEncodeError ∨ e = OverflowError ∨ e = OperationalError.
Proof.
  unfold insert_tool_call, bind_optional_text, bind_text, bind_integer,
    mbind, result_bind, mret, result_ret.
  intros Hi. repeat (case_match; simplify_eq; auto).
Qed.

Lemma ledger_loop_Raise snap_id ledger e : ∀ conn conn',
  for_each ledger (λ tc, execute (λ ix, insert_tool_call ix snap_id tc)) conn
  = (conn', Raise e) →
  e = UnicodeEncodeError ∨ e = OverflowError ∨ e = OperationalError.
Proof.
  induction ledger as [|tc ledger IH]; intros conn conn'; cbn; [done|].
  unfold mbind, transaction_bind. rewrite execute_run.
  destruct (insert_tool_call (working conn) snap_id tc) as [ix|e'] eqn:E.
  - apply IH.
  - intros [= _ ->]. by apply insert_tool_call_Raise in E.
Qed.

(** X12. The exceptions of [snapshot]: a call that raises raises
    UnicodeEncodeError, IntegrityError, OverflowError or OperationalError,
    and so never KeyError, FileNotFoundError or an error of decoding. *)
Theorem snapshot_exceptions `{Models} st state parent env st' e :
  snapshot st state parent env = (st', Raise e) →
  e = UnicodeEncodeError ∨ e = IntegrityError ∨
  e = OverflowError ∨ e = OperationalError.
Proof.
  unfold snapshot.
  destruct (Utf8.encode (to_json state)) as [data|]; [|intros [= _ <-]; auto].
  destruct (_write_blob st data) as [st1 h].
  unfold snapshot_transaction, mbind, transaction_bind.
  rewrite execute_run.
  match goal with
  | |- context [insert_snapshot ?ix ?r] =>
      destruct (insert_snapshot ix r) as [ix1|e1] eqn:E1
  end.
  - match goal with
    | |- context [for_each ?l ?body ?c] =>
        destruct (for_each l body c) as [c' [[]|e2]] eqn:E2
    end; cbn; [done|].
    intros [= _ <-]. apply ledger_loop_Raise in E2. tauto.
  - intros [= _ <-]. apply insert_snapshot_Raise in E1. tauto.
Qed.

Lemma snapshot_exceptions_witness :
  OverflowError = UnicodeEncodeError ∨ OverflowError = IntegrityError ∨
  OverflowError = OverflowError ∨ OverflowError = OperationalError.
Proof.
  apply (@snapshot_exceptions Demo.models Demo.store1 Demo.stateD None
           Demo.env2
           (@snapshot Demo.models Demo.store1 Demo.stateD None Demo.env2).1).
  vm_compute. reflexivity.
Defined.

(** X13. The primary key: a call whose fresh identifier is already the
    identifier of a row raises IntegrityError once the blob is written, and
    adds no row. *)
Theorem snapshot_duplicate_identifier `{Models} st state parent env data r :
  Utf8.encode (to_json state) = Some data →
  text_ok (sha256_text (to_json state)) →
  optional_text_ok parent →
  text_ok (uuid4 env) →
  r ∈ Index.snapshots (db st) →
  Snapshots.snapshot_id r = uuid4 env →
  snapshot st state parent env
  = ((_write_blob st data).1, Raise IntegrityError).
Proof.
  intros Hd Hsh Hp Hid Hr Heq.
  destruct (snapshot st state parent env) as [st' [id|e]] eqn:Hs.
  - apply snapshot_Ok in Hs as (_ & _ & -> & _ & _ & Hfresh & _).
    by destruct (proj1 (Forall_forall _ _) Hfresh r Hr).
  - pose proof (snapshot_Raise_encoded _ _ _ _ _ _ _ Hd Hs) as ->.
    f_equal. f_equal. revert Hs. unfold snapshot. rewrite Hd.
    pose proof (_write_blob_encoded st _ _ Hd) as Hh.
    pose proof (_write_blob_db st data) as Hdb. revert Hh Hdb.
    destruct (_write_blob st data) as [st1 h]. cbn. intros -> Hdb.
    unfold snapshot_transaction, mbind, transaction_bind.
    rewrite execute_run. cbn. unfold insert_snapshot. cbn.
    apply bind_text_returns in Hid, Hsh.
    apply bind_optional_text_returns in Hp.
    rewrite Hid, Hp, Hsh. cbn.
    destruct (existsb _ _) eqn:Hex; [by intros [= _ <-]|].
    apply not_true_iff_false in Hex. destruct Hex. apply existsb_exists.
    rewrite Hdb. exists r. split; [by apply list_elem_of_In|].
    by apply bool_decide_eq_true.
Qed.

Lemma snapshot_duplicate_identifier_witness :
  @snapshot Demo.models Demo.store1 Demo.stateC None Demo.env1
  = ((@_write_blob Demo.models Demo.store1 (Demo.payload Demo.step2)).1,
     Raise IntegrityError).
Proof.
  apply (@snapshot_duplicate_identifier Demo.models Demo.store1 Demo.stateC
           None Demo.env1 (Demo.payload Demo.step2)
           (@new_row Demo.models Demo.stateA None Demo.env1)).
  - vm_compute. reflexivity.
  - vm_compute. eauto.
  - intros s Hs. discriminate Hs.
  - vm_compute. eauto.
  - apply list_elem_of_In. vm_compute. auto.
  - reflexivity.
Defined.

(** X14. A blob without a row: when the text of the state is new and the
    call raises after it was encoded, the blob stays in the directory
    under the digest of the text, the index is as before, and no row of
    the index names that blob. *)
Theorem snapshot_raise_keeps_blob `{Models} st state parent env st' e data :
  store_wf st →
  Utf8.encode (to_json state) = Some data →
  blob_dir st !! sha256_text (to_json state) = None →
  snapshot st state parent env = (st', Raise e) →
  blob_dir st' = <[sha256_text (to_json state) := data]> (blob_dir st) ∧
  db st' = db st ∧
  ∀ r, r ∈ Index.snapshots (db st') →
       Snapshots.state_blob_hash r ≠ sha256_text (to_json state).
Proof.
  intros Hwf Hd Hnone Hs.
  apply (snapshot_Raise_encoded _ _ _ _ _ _ _ Hd) in Hs as ->.
  unfold _write_blob. cbn.
  rewrite (Utf8Facts.decode_ignore_encode _ _ Hd), Hnone. cbn.
  split; [done|]. split; [done|]. intros r Hr Heq.
  destruct (wf_blob_exists _ Hwf r Hr) as [d Hl].
  rewrite Heq in Hl. congruence.
Qed.

Lemma snapshot_raise_keeps_blob_witness :
  blob_dir (@snapshot Demo.models init Demo.stateD None Demo.env1).1
  = <[@sha256_text Demo.models Demo.step2 := Demo.payload Demo.step2]> ∅ ∧
  db (@snapshot Demo.models init Demo.stateD None Demo.env1).1 = db init.
Proof.
  destruct (@snapshot_raise_keeps_blob Demo.models init Demo.stateD None
              Demo.env1
              (@snapshot Demo.models init Demo.stateD None Demo.env1).1
              OverflowError (Demo.payload Demo.step2))
    as (Hblob & Hdb & _).
  - exact init_wf.
  - vm_compute. reflexivity.
  - reflexivity.
  - vm_compute. reflexivity.
  - exact (conj Hblob Hdb).
Defined.

(** X15. When [snapshot] returns and when it raises: the call returns
    exactly when the text of the state, the fresh identifier, the parent
    and the digest are text that encodes, the identifier is not in the
    index, and SQLite takes every ledger entry; it raises exactly when one
    of these fails; and what it returns is the fresh identifier. *)
Theorem snapshot_returns_or_raises `{Models} st state parent env :
  (snapshot_accepts st state parent env ↔
   ∃ st', snapshot st state parent env = (st', Ok (uuid4 env))) ∧
  (¬ snapshot_accepts st state parent env ↔
   ∃ st' e, snapshot st state parent env = (st', Raise e)) ∧
  (∀ st' id, snapshot st state parent env = (st', Ok id) → id = uuid4 env).
Proof.
  pose proof (snapshot_returns st state parent env) as Hret.
  split; [done|].
  destruct (snapshot st state parent env) as [st' [id|e]] eqn:Hs.
  - pose proof Hs as Hs'.
    apply snapshot_Ok in Hs' as (_ & _ & -> & _). split.
    + split; [|by intros (? & ? & ?)].
      intros Hno. destruct Hno. apply Hret. eauto.
    + by intros ? ? [= _ <-].
  - split; [|done]. split; [eauto|].
    intros _ Hacc. apply Hret in Hacc as [? ?]. done.
Qed.

(** ** The clock *)

(** X16. The latest snapshot is the one of the latest [created_at], not the
    one written last: when [snapshot] returns at a time earlier than the
    [created_at] of a row of the index, [last_snapshot_id] does not give
    the identifier of that call but the one of an earlier row, and no row
    is later than that one. *)
Theorem last_snapshot_id_clock_backwards `{Models}
    st state parent env st' id r :
  snapshot st state parent env = (st', Ok id) →
  r ∈ Index.snapshots (db st) →
  (time env < Snapshots.created_at r)%Z →
  last_snapshot_id st' ≠ Some id ∧
  ∃ m, m ∈ Index.snapshots (db st) ∧
       last_snapshot_id st' = Some (Snapshots.snapshot_id m) ∧
       ∀ r', r' ∈ Index.snapshots (db st') →
             (Snapshots.created_at r' ≤ Snapshots.created_at m)%Z.
Proof.
  intros Hs Hr Hlt.
  apply snapshot_Ok in Hs as (_ & _ & -> & _ & _ & Hfresh & Hdb).
  unfold last_snapshot_id.
  pose proof (head_order_by_created_at_desc (Index.snapshots (db st')))
    as Hh.
  destruct (head _) as [m|].
  - destruct Hh as [Hm Hmax]. rewrite Hdb in Hm. cbn in Hm.
    assert (Hle : (Snapshots.created_at r ≤ Snapshots.created_at m)%Z).
    { apply Hmax. rewrite Hdb. cbn. apply elem_of_app. by left. }
    apply elem_of_app in Hm as [Hm | Hm].
    + pose proof (proj1 (Forall_forall _ _) Hfresh m Hm) as Hne.
      split; [cbn; congruence|]. by exists m.
    + apply list_elem_of_singleton in Hm as ->. cbn in Hle. lia.
  - rewrite Hdb in Hh. cbn in Hh. by destruct (Index.snapshots (db st)).
Qed.

Lemma last_snapshot_id_clock_backwards_witness :
  last_snapshot_id
    (@snapshot Demo.models Demo.store1 Demo.stateC None Demo.env0).1
  ≠ Some Demo.s2.
Proof.
  destruct (@last_snapshot_id_clock_backwards Demo.models Demo.store1
              Demo.stateC None Demo.env0
              (@snapshot Demo.models Demo.store1 Demo.stateC None Demo.env0).1
              Demo.s2 (@new_row Demo.models Demo.stateA None Demo.env1))
    as [Hne _].
  - vm_compute. reflexivity.
  - apply list_elem_of_In. vm_compute. auto.
  - vm_compute. reflexivity.
  - exact Hne.
Defined.

(** ** The ledger of a snapshot *)

Lemma ledger_rows_of_kept `{Models} st st' id r :
  evolves st st' →
  snapshot_row st id = Some r →
  ledger_rows_of st' id = ledger_rows_of st id.
Proof.
  induction 1 as [|st' state parent env Hev IH]; [done|].
  intros Hrow. rewrite <- (IH Hrow).
  apply (snapshot_row_later _ _ _ _ Hev) in Hrow.
  apply snapshot_row_id in Hrow as [Hr <-].
  destruct (snapshot st' state parent env) as [st2 [id'|e]] eqn:Hs; cbn.
  - apply snapshot_Ok in Hs as (_ & _ & -> & _ & _ & Hfresh & Hdb).
    unfold ledger_rows_of. rewrite Hdb. cbn. rewrite filter_app.
    rewrite (filter_none _ (ledger_rows _ _ _)); [by rewrite app_nil_r|].
    eapply Forall_impl; [apply ledger_rows_tagged|]. cbn.
    intros l -> Heq.
    by destruct (proj1 (Forall_forall _ _) Hfresh r Hr).
  - apply snapshot_Raise in Hs as [Hdb _].
    unfold ledger_rows_of. by rewrite Hdb.
Qed.

(** X17. The ledger of a snapshot stays as it was written: whatever calls
    of [snapshot] follow, the rows tagged with the identifier that a call
    returned are the same rows, and they give the ledger of the state
    back in order. *)
Theorem ledger_after_later_calls `{Models}
    st state parent env st1 id st2 :
  store_wf st →
  snapshot st state parent env = (st1, Ok id) →
  evolves st1 st2 →
  ledger_rows_of st2 id = ledger_rows_of st1 id ∧
  ToolLedger.entry <$> ledger_rows_of st2 id = tool_ledger state.
Proof.
  intros Hwf Hs Hev.
  pose proof (snapshot_row_new _ _ _ _ _ _ Hs) as Hrow.
  pose proof (ledger_rows_of_kept _ _ _ _ Hev Hrow) as Hkept.
  split; [done|]. rewrite Hkept.
  rewrite (ledger_rows_of_new _ _ _ _ _ _ Hwf Hs).
  apply ledger_rows_entry.
Qed.

Lemma ledger_after_later_calls_witness :
  ledger_rows_of Demo.store2 Demo.s1 = ledger_rows_of Demo.store1 Demo.s1 ∧
  ToolLedger.entry <$> ledger_rows_of Demo.store2 Demo.s1
  = [Demo.search; Demo.fetch].
Proof.
  apply (@ledger_after_later_calls Demo.models init Demo.stateA None
           Demo.env1 Demo.store1 Demo.s1 Demo.store2).
  - exact init_wf.
  - vm_compute. reflexivity.
  - apply evolves_snapshot, evolves_refl.
Defined.
